(** * glager: a log-sequence matcher for lager records

    A shallow embedding of the repository's Go sources and the properties
    its specification states about them.

    - [lager]  : the logger of [package lager] (sessions, base data).
    - [glager] : the matcher and entry builders of [package glager], in the
                 variant that accepts buffers, contents providers and readers.
    - [legacy] : the earlier [glager.go], which accepts readers only.

    Go's [encoding/json] and the iteration order of Go maps are outside the
    repository; they enter as section variables with the few facts about them
    the proofs need. *)

From Stdlib Require Import ZArith Ascii String List Lia Permutation.
From stdpp Require Import base gmap list strings pretty.

Local Open Scope Z_scope.
Local Open Scope string_scope.
Local Open Scope list_scope.

(** ** Go values *)

(** A Go [error], identified with what its [Error()] method returns.
    A possibly-nil [error] is an [option error]; [None] is [nil]. *)
Record error := errors_New { err_Error : string }.

(** A Go [[]byte]. *)
Abbreviation bytes := (list Byte.byte).

(** What an [interface{}] can hold: the shapes the builders and the matcher
    tell apart, and [VOther] for any other Go value, known by its dynamic
    type (what [%T] prints) and its default rendering (what [%v] prints). *)
Inductive value :=
| VNil
| VBool (b : bool)
| VInt (n : Z)
| VString (s : string)
| VOther (ty repr : string).

(** [fmt]'s [%T] verb. *)
Definition fmt_T (v : value) : string :=
  match v with
  | VNil => "<nil>"
  | VBool _ => "bool"
  | VInt _ => "int"
  | VString _ => "string"
  | VOther ty _ => ty
  end.

(** [fmt]'s [%v] verb. *)
Definition fmt_v (v : value) : string :=
  match v with
  | VNil => "<nil>"
  | VBool b => if b then "true" else "false"
  | VInt n => pretty n
  | VString s => s
  | VOther _ repr => repr
  end.

(** The outcome of a call that may panic. *)
Inductive result (A : Type) :=
| Ok (a : A)
| Panic (p : error).
Arguments Ok {A} a.
Arguments Panic {A} p.

(** The panic value of calling a method on a nil interface. *)
Definition nil_dereference : error :=
  errors_New "runtime error: invalid memory address or nil pointer dereference".

(** The panic value of indexing a slice past its end. *)
Definition index_out_of_range : error :=
  errors_New "runtime error: index out of range".

(** ** package lager *)

Module lager.

(** [lager.Data], a [map[string]interface{}]. *)
Abbreviation Data := (gmap string value).

(** Modelled from the spec: [lager.LogLevel] and its constants are declared
    in a file of package lager that is not among the sources; the spec
    gives the ordinals 0=DEBUG .. 3=FATAL of an integer type. *)
Abbreviation LogLevel := Z.
Definition DEBUG : LogLevel := 0.
Definition INFO : LogLevel := 1.
Definition ERROR : LogLevel := 2.
Definition FATAL : LogLevel := 3.

(** Modelled from the spec: [lager.LogFormat], declared in the same absent
    file; these are the fields the logger fills and the matcher reads. *)
Module LogFormat.
Record t := mk {
  Timestamp : string;
  Source : string;
  Message : string;
  LogLevel : Z;
  Data : gmap string value;
}.
End LogFormat.

(** [for k, v := range src { dst[k] = v }] *)
Definition copy_into (src dst : Data) : Data :=
  map_fold (λ k v acc, <[k:=v]> acc) dst src.

(** [sync/atomic.AddUint32]: the new value, wrapped to 32 bits. *)
Definition atomic_AddUint32 (val delta : Z) : Z := (val + delta) mod 2^32.

Definition StackTraceBufferSize : Z := 1024 * 100.

(** [runtime.Stack(buf, false)] followed by [buf[:stackSize]], for a buffer
    of [size] bytes: the first [size] bytes of [stack], the text the runtime
    has to write for the calling goroutine. *)
Definition runtime_Stack (size : Z) (stack : string) : string :=
  substring 0 (Z.to_nat size) stack.

(** What [sink.Log] is handed: a [LogFormat] with, beside the serialized
    fields, its fields [time] (nanoseconds, as [UnixNano] gives them) and
    [Error]. *)
Record Logged := mk_Logged {
  Logged_time : Z;
  Logged_format : LogFormat.t;
  Logged_Error : option error;
}.

Section Logger.
(** The [Sink] interface is declared outside the sources. *)
Context {Sink : Type}.

Record logger := mk_logger {
  component : string;
  task : string;
  sinks : list Sink;
  sessionID : string;
  nextSession : Z;          (* uint32 *)
  data : gmap string value;
}.

Definition NewLogger (component : string) : logger :=
  {| component := component;
     task := component;
     sinks := [];
     sessionID := "";
     nextSession := 0;
     data := ∅ |}.

(** Mutates the receiver: the result is the receiver afterwards. *)
Definition RegisterSink (l : logger) (sink : Sink) : logger :=
  {| component := component l;
     task := task l;
     sinks := sinks l ++ [sink];
     sessionID := sessionID l;
     nextSession := nextSession l;
     data := data l |}.

Definition SessionName (l : logger) : string := task l.

Definition baseData (l : logger) (givenData : list Data) : Data :=
  let data0 := copy_into (data l) ∅ in
  let data1 :=
    if bool_decide (0 < List.length givenData)%nat
    then foldl (λ acc dataArg, copy_into dataArg acc) data0 givenData
    else data0 in
  if bool_decide (sessionID l ≠ "")
  then <["session" := VString (sessionID l)]> data1
  else data1.

(** [Session] returns the new logger; it also advances the receiver's
    counter, so the receiver afterwards is the second component. *)
Definition Session (l : logger) (task' : string) (data' : list Data)
  : logger * logger :=
  let sid := atomic_AddUint32 (nextSession l) 1 in
  let l' := {| component := component l;
               task := task l;
               sinks := sinks l;
               sessionID := sessionID l;
               nextSession := sid;
               data := data l |} in
  let sessionIDstr :=
    if bool_decide (sessionID l ≠ "")
    then sessionID l +:+ "." +:+ pretty sid
    else pretty sid in
  ({| component := component l;
      task := task l +:+ "." +:+ task';
      sinks := sinks l;
      sessionID := sessionIDstr;
      nextSession := 0;
      data := baseData l data' |}, l').

Definition WithData (l : logger) (data' : Data) : logger :=
  {| component := component l;
     task := task l;
     sinks := sinks l;
     sessionID := sessionID l;
     nextSession := 0;
     data := baseData l [data'] |}.

(** A run of derivations from one parent, in the order in which their
    counter increments take effect: the children, and the parent
    afterwards. *)
Fixpoint Sessions (l : logger) (calls : list (string * list Data))
  : list logger * logger :=
  match calls with
  | [] => ([], l)
  | (task', data') :: rest =>
      let '(child, l') := Session l task' data' in
      let '(children, l'') := Sessions l' rest in
      (child :: children, l'')
  end.

(** [formatTimestamp] renders a time with the floating-point formatting of
    [fmt]; it enters as a function of the nanoseconds. *)
Variable formatTimestamp : Z → string.

(** [for _, sink := range l.sinks { sink.Log(log) }]: the calls of [Log]
    made, in order. *)
Definition log_to_sinks (l : logger) (log : Logged) : list (Sink * Logged) :=
  (λ sink, (sink, log)) <$> sinks l.

(** The logging methods take the reading [t] of [time.Now().UTC()]. *)
Definition Debug (l : logger) (t : Z) (action : string) (data' : list Data)
  : list (Sink * Logged) :=
  let log :=
    mk_Logged t
      (LogFormat.mk (formatTimestamp t) (component l)
         (task l +:+ "." +:+ action) DEBUG (baseData l data'))
      None in
  log_to_sinks l log.

Definition Info (l : logger) (t : Z) (action : string) (data' : list Data)
  : list (Sink * Logged) :=
  let log :=
    mk_Logged t
      (LogFormat.mk (formatTimestamp t) (component l)
         (task l +:+ "." +:+ action) INFO (baseData l data'))
      None in
  log_to_sinks l log.

Definition Error (l : logger) (t : Z) (action : string) (err : option error)
    (data' : list Data) : list (Sink * Logged) :=
  let logData := baseData l data' in
  let logData :=
    match err with
    | Some e => <["error" := VString (err_Error e)]> logData
    | None => logData
    end in
  let log :=
    mk_Logged t
      (LogFormat.mk (formatTimestamp t) (component l)
         (task l +:+ "." +:+ action) ERROR logData)
      err in
  log_to_sinks l log.

(** [Fatal] ends in [panic(err)]: the calls of [Log] made before it, and
    the value it panics with. *)
Definition Fatal (l : logger) (stack : string) (t : Z) (action : string)
    (err : option error) (data' : list Data)
  : list (Sink * Logged) * option error :=
  let logData := baseData l data' in
  let stackTrace := runtime_Stack StackTraceBufferSize stack in
  let logData :=
    match err with
    | Some e => <["error" := VString (err_Error e)]> logData
    | None => logData
    end in
  let logData := <["trace" := VString stackTrace]> logData in
  let log :=
    mk_Logged t
      (LogFormat.mk (formatTimestamp t) (component l)
         (task l +:+ "." +:+ action) FATAL logData)
      err in
  (log_to_sinks l log, err).
End Logger.
Arguments logger : clear implicits.

End lager.

(** ** What a matcher can be handed *)

(** The [actual interface{}] given to [Match]: its dynamic type and its value
    as gomega's [format] package prints them, and which of the interfaces the
    matcher asks for it implements. [asBufferProvider] is what
    [x.Buffer().Contents()] returns,
    [asContentsProvider] what [x.Contents()] returns, [asReader] the bytes an
    [io.Reader] has not handed out yet. A [*gbytes.Buffer] has both
    [Contents] and [Read]. *)
Record actual_value := mk_actual {
  goType : string;
  goRepr : string;
  asBufferProvider : option bytes;
  asContentsProvider : option bytes;
  asReader : option bytes;
}.

Definition newline : string := String (ascii_of_nat 10) "".

(** gomega's [format.Object(object, indentation)]: the indentation, the type
    between angle brackets, then the value. *)
Definition format_Object (object : actual_value) (indentation : nat) : string :=
  String.concat "" (replicate indentation "    ")
    +:+ "<" +:+ goType object +:+ ">: " +:+ goRepr object.

(** An [io.Reader] after [Match] has read from it. *)
Definition with_reader (x : actual_value) (unread : bytes) : actual_value :=
  {| goType := goType x;
     goRepr := goRepr x;
     asBufferProvider := asBufferProvider x;
     asContentsProvider := asContentsProvider x;
     asReader := Some unread |}.

(** What [Match] returns, [(success bool, err error)], and what it leaves
    behind: the matcher, whose [actual] field it assigns, and the source. *)
Record outcome {M : Type} := mk_outcome {
  success : bool;
  err : option error;
  matcher : M;
  source : actual_value;
}.
Arguments outcome : clear implicits.

(** ** package glager *)

Module glager.
Import lager.

Abbreviation logEntry := LogFormat.t.
Abbreviation logEntries := (list LogFormat.t).
Abbreviation logEntryData := (gmap string value).

(** The [option] type, a function that mutates the entry it is given: the
    entry afterwards, or a panic. *)
Definition option_ : Type := logEntry → result logEntry.

Module logMatcher.
Record t := mk { actual : logEntries; expected : logEntries }.
End logMatcher.

Definition ContainSequence (expectedSequence : logEntries) : logMatcher.t :=
  {| logMatcher.actual := []; logMatcher.expected := expectedSequence |}.

Definition set_Message (e : logEntry) (msg : string) : logEntry :=
  LogFormat.mk (LogFormat.Timestamp e) (LogFormat.Source e) msg
               (LogFormat.LogLevel e) (LogFormat.Data e).

Definition set_Source (e : logEntry) (src : string) : logEntry :=
  LogFormat.mk (LogFormat.Timestamp e) src (LogFormat.Message e)
               (LogFormat.LogLevel e) (LogFormat.Data e).

(** [e.Data[key] = val] *)
Definition set_Data (e : logEntry) (key : string) (val : value) : logEntry :=
  LogFormat.mk (LogFormat.Timestamp e) (LogFormat.Source e)
               (LogFormat.Message e) (LogFormat.LogLevel e)
               (<[key:=val]> (LogFormat.Data e)).

(** [for _, option := range options { option(&entry) }] *)
Fixpoint apply_options (options : list option_) (entry : logEntry)
  : result logEntry :=
  match options with
  | [] => Ok entry
  | option :: rest =>
      match option entry with
      | Ok entry' => apply_options rest entry'
      | Panic p => Panic p
      end
  end.

Definition Entry (logLevel : LogLevel) (options : list option_)
  : result logEntry :=
  let entry := LogFormat.mk "" "" "" logLevel ∅ in
  apply_options options entry.

Definition Message (msg : string) : option_ :=
  λ e, Ok (set_Message e msg).

Definition Action (action : string) : option_ := Message action.

Definition Source (src : string) : option_ :=
  λ e, Ok (set_Source e src).

Definition invalid_key (k : value) : error :=
  errors_New ("Invalid type for data key. Want string. Got "
                +:+ fmt_T k +:+ ":" +:+ fmt_v k +:+ ".").

(** The loop of [Data]'s closure, [for i := 0; i < len(kv); i += 2],
    over the arguments from index [i] on. *)
Fixpoint Data_loop (kv : list value) (e : logEntry) : result logEntry :=
  match kv with
  | [] => Ok e
  | kv_i :: after =>
      match kv_i with
      | VString key =>
          match after with
          | kv_i1 :: rest => Data_loop rest (set_Data e key kv_i1)
          | [] => Panic index_out_of_range
          end
      | _ => Panic (invalid_key kv_i)
      end
  end.

Definition Data (kv : list value) : option_ :=
  let kv := if bool_decide (List.length kv mod 2 = 1)%nat
            then kv ++ [VString ""] else kv in
  λ e, Data_loop kv e.

Definition Info (options : list option_) : result logEntry :=
  Entry INFO options.

Definition Debug (options : list option_) : result logEntry :=
  Entry DEBUG options.


Definition Error (err : option error) (options : list option_)
  : result logEntry :=
  let options :=
    match err with
    | Some e => options ++ [Data [VString "error"; VString (err_Error e)]]
    | None => options
    end in
  Entry ERROR options.

Definition Fatal (err : option error) (options : list option_)
  : result logEntry :=
  let options :=
    match err with
    | Some e => options ++ [Data [VString "error"; VString (err_Error e)]]
    | None => options
    end in
  Entry FATAL options.

Definition logData (entry : logEntry) : logEntryData := LogFormat.Data entry.

(** What one [decoder.Decode(&entry)] does with the bytes not yet decoded. *)
Inductive Decode_result :=
| Decode_EOF
| Decode_error (err : error)
| Decode_entry (entry : logEntry) (rest : bytes).

Definition unsupported_actual (actual : actual_value) : error :=
  errors_New ("ContainSequence must be passed an io.Reader, "
                +:+ "glager.ContentsProvider, or gbytes.BufferProvider. Got:"
                +:+ newline +:+ format_Object actual 1).

(** The type switch of [Match]: the bytes the reader will deliver, and
    whether that reader is [actual] itself. *)
Definition reader_of (actual : actual_value) : option (bytes * bool) :=
  match asBufferProvider actual with
  | Some contents => Some (contents, false)
  | None =>
      match asContentsProvider actual with
      | Some contents => Some (contents, false)
      | None =>
          match asReader actual with
          | Some unread => Some (unread, true)
          | None => None
          end
      end
  end.

Section Matcher.
(** [encoding/json]: [json.Marshal] rendered as a string, and one
    [Decode] of a [json.Decoder] as a function of the bytes ahead of it. *)
Variable json_Marshal : value → error + string.
Variable json_Decode : bytes → Decode_result.
(** The order in which a [range] over a map visits it. *)
Variable range_order : gmap string value → list (string * value).

(** The body of [logEntryData.contains], over the pairs still to visit. *)
Fixpoint contains_loop (pairs : list (string * value))
    (actual : logEntryData) : bool * option error :=
  match pairs with
  | [] => (true, None)
  | (expectedKey, expectedVal) :: rest =>
      match actual !! expectedKey with
      | None => (false, None)
      | Some actualVal =>
          let actualJSON :=
            match json_Marshal actualVal with
            | inr js => js
            | inl _ => ""
            end in
          match json_Marshal expectedVal with
          | inl err => (false, Some err)
          | inr expectedJSON =>
              if bool_decide (actualJSON ≠ expectedJSON)
              then (false, None)
              else contains_loop rest actual
          end
      end
  end.

Definition logEntryData_contains (actual expected : logEntryData)
  : bool * option error :=
  contains_loop (range_order expected) actual.

Definition logEntry_contains (actual expected : logEntry)
  : bool * option error :=
  if bool_decide (LogFormat.Source expected ≠ ""
                  ∧ LogFormat.Source actual ≠ LogFormat.Source expected)
  then (false, None)
  else if bool_decide (LogFormat.Message expected ≠ ""
                       ∧ LogFormat.Message actual ≠ LogFormat.Message expected)
  then (false, None)
  else if bool_decide (LogFormat.LogLevel actual ≠ LogFormat.LogLevel expected)
  then (false, None)
  else
    match logEntryData_contains (logData actual) (logData expected) with
    | (_, Some err) => (false, Some err)
    | (containsData, None) => (containsData, None)
    end.

(** The loop of [indexOf]; [i] is the index of the head of [entries]. *)
Fixpoint indexOf_from (i : nat) (entries : logEntries) (entry : logEntry)
  : nat * bool * option error :=
  match entries with
  | [] => (0%nat, false, None)
  | actual :: rest =>
      match logEntry_contains actual entry with
      | (_, Some err) => (0%nat, false, Some err)
      | (true, None) => (i, true, None)
      | (false, None) => indexOf_from (S i) rest entry
      end
  end.

Definition indexOf (entries : logEntries) (entry : logEntry)
  : nat * bool * option error :=
  indexOf_from 0 entries entry.

(** The second loop of [Match], [for _, expected := range lm.expected]. *)
Fixpoint search (actualEntries expected : logEntries)
  : bool * option error :=
  match expected with
  | [] => (true, None)
  | expected1 :: rest =>
      match indexOf actualEntries expected1 with
      | (_, _, Some err) => (false, Some err)
      | (_, false, None) => (false, None)
      | (i, true, None) => search (drop (i + 1) actualEntries) rest
      end
  end.

(** The first loop of [Match], [for { decoder.Decode(&entry) ... }]:
    the entries appended to [lm.actual], the error that ended the loop
    if it was not [io.EOF], and the bytes left. [None] when [fuel]
    iterations did not reach the end. *)
Fixpoint decode_loop (fuel : nat) (input : bytes) (actual : logEntries)
  : option (logEntries * option error * bytes) :=
  match fuel with
  | O => None
  | S fuel' =>
      match json_Decode input with
      | Decode_EOF => Some (actual, None, input)
      | Decode_error err => Some (actual, Some err, input)
      | Decode_entry entry rest => decode_loop fuel' rest (actual ++ [entry])
      end
  end.

(** [Match] from [decoder := json.NewDecoder(reader)] on; [input] is what
    [reader] delivers. When [reader] is [actual] itself it is left where
    decoding stopped (a real decoder reads ahead in chunks, so after a
    decode error the reader may have been drained further than that). *)
Definition decode_and_search (fuel : nat) (lm : logMatcher.t)
    (actual : actual_value) (input : bytes) (is_actual : bool)
  : option (outcome logMatcher.t) :=
  match decode_loop fuel input [] with
  | None => None
  | Some (entries, stop, unread) =>
      let lm' := logMatcher.mk entries (logMatcher.expected lm) in
      let actual' :=
        if is_actual then with_reader actual unread else actual in
      match stop with
      | Some err => Some (mk_outcome _ false (Some err) lm' actual')
      | None =>
          let '(success, err) :=
            search (logMatcher.actual lm') (logMatcher.expected lm') in
          Some (mk_outcome _ success err lm' actual')
      end
  end.

Definition Match (fuel : nat) (lm : logMatcher.t) (actual : actual_value)
  : option (outcome logMatcher.t) :=
  match reader_of actual with
  | None =>
      Some (mk_outcome _ false (Some (unsupported_actual actual)) lm actual)
  | Some (input, is_actual) =>
      decode_and_search fuel lm actual input is_actual
  end.
End Matcher.

End glager.

(** ** The earlier glager.go *)

Module legacy.
Import lager.

Abbreviation LogEntry := LogFormat.t.
Abbreviation LogEntries := (list LogFormat.t).
Abbreviation LogEntryData := (gmap string value).

Definition option_ : Type := LogEntry → result LogEntry.

Module logMatcher.
Record t := mk { actual : LogEntries; expected : LogEntries }.
End logMatcher.

Definition ContainSequence (expectedSequence : LogEntries) : logMatcher.t :=
  {| logMatcher.actual := []; logMatcher.expected := expectedSequence |}.

Fixpoint apply_options (options : list option_) (entry : LogEntry)
  : result LogEntry :=
  match options with
  | [] => Ok entry
  | option :: rest =>
      match option entry with
      | Ok entry' => apply_options rest entry'
      | Panic p => Panic p
      end
  end.

Definition Entry (logLevel : LogLevel) (options : list option_)
  : result LogEntry :=
  let entry := LogFormat.mk "" "" "" logLevel ∅ in
  apply_options options entry.

Definition Message (msg : string) : option_ :=
  λ e, Ok (glager.set_Message e msg).

Definition Action (action : string) : option_ := Message action.

Definition Source (src : string) : option_ :=
  λ e, Ok (glager.set_Source e src).

(** The loop of [Data]'s closure over string arguments. *)
Fixpoint Data_loop (kv : list string) (e : LogEntry) : result LogEntry :=
  match kv with
  | [] => Ok e
  | kv_i :: after =>
      match after with
      | kv_i1 :: rest => Data_loop rest (glager.set_Data e kv_i (VString kv_i1))
      | [] => Panic index_out_of_range
      end
  end.

Definition Data (kv : list string) : option_ :=
  let kv := if bool_decide (List.length kv mod 2 = 1)%nat
            then kv ++ [""] else kv in
  λ e, Data_loop kv e.

Definition Info (options : list option_) : result LogEntry :=
  Entry INFO options.

Definition Debug (options : list option_) : result LogEntry :=
  Entry DEBUG options.

(** [err.Error()] is evaluated before anything else. *)
Definition Error (err : option error) (options : list option_)
  : result LogEntry :=
  match err with
  | None => Panic nil_dereference
  | Some e => Entry ERROR (options ++ [Data ["error"; err_Error e]])
  end.

Definition Fatal (options : list option_) : result LogEntry :=
  Entry FATAL options.

Definition LogData (entry : LogEntry) : LogEntryData := LogFormat.Data entry.

Definition unsupported_actual (actual : actual_value) : error :=
  errors_New ("Contains must be passed an io.Reader. Got:"
                +:+ newline +:+ format_Object actual 1).

Section Matcher.
Variable json_Decode : bytes → glager.Decode_result.
Variable range_order : gmap string value → list (string * value).
(** [v != actualValue] on two [interface{}]: its truth value, or the
    run-time panic on operands of one uncomparable type. *)
Variable interface_ne : value → value → result bool.

(** The body of [LogEntryData.contains], over the pairs still to visit. *)
Fixpoint contains_loop (pairs : list (string * value))
    (actual : LogEntryData) : result bool :=
  match pairs with
  | [] => Ok true
  | (k, v) :: rest =>
      match actual !! k with
      | None => Ok false
      | Some actualValue =>
          match interface_ne v actualValue with
          | Panic p => Panic p
          | Ok true => Ok false
          | Ok false => contains_loop rest actual
          end
      end
  end.

Definition LogEntryData_contains (actual expected : LogEntryData)
  : result bool :=
  contains_loop (range_order expected) actual.

Definition LogEntry_contains (actual expected : LogEntry) : result bool :=
  if bool_decide (LogFormat.Source expected ≠ ""
                  ∧ LogFormat.Source actual ≠ LogFormat.Source expected)
  then Ok false
  else if bool_decide (LogFormat.Message expected ≠ ""
                       ∧ LogFormat.Message actual ≠ LogFormat.Message expected)
  then Ok false
  else if bool_decide (LogFormat.LogLevel actual ≠ LogFormat.LogLevel expected)
  then Ok false
  else if bool_decide (LogFormat.Timestamp expected ≠ ""
                       ∧ LogFormat.Timestamp actual ≠ LogFormat.Timestamp expected)
  then Ok false
  else
    match LogEntryData_contains (LogData actual) (LogData expected) with
    | Panic p => Panic p
    | Ok false => Ok false
    | Ok true => Ok true
    end.

Fixpoint indexOf_from (i : nat) (entries : LogEntries) (entry : LogEntry)
  : result (nat * bool) :=
  match entries with
  | [] => Ok (0%nat, false)
  | actual :: rest =>
      match LogEntry_contains actual entry with
      | Panic p => Panic p
      | Ok true => Ok (i, true)
      | Ok false => indexOf_from (S i) rest entry
      end
  end.

Definition indexOf (entries : LogEntries) (entry : LogEntry)
  : result (nat * bool) :=
  indexOf_from 0 entries entry.

(** The loop of [LogEntries.contains]. *)
Fixpoint LogEntries_contains (entries : LogEntries) (entry : LogEntry)
  : result bool :=
  match entries with
  | [] => Ok false
  | actual :: rest =>
      match LogEntry_contains actual entry with
      | Panic p => Panic p
      | Ok true => Ok true
      | Ok false => LogEntries_contains rest entry
      end
  end.

Fixpoint search (actualEntries expected : LogEntries)
  : result (bool * option error) :=
  match expected with
  | [] => Ok (true, None)
  | expected1 :: rest =>
      match indexOf actualEntries expected1 with
      | Panic p => Panic p
      | Ok (_, false) => Ok (false, None)
      | Ok (i, true) => search (drop (i + 1) actualEntries) rest
      end
  end.

Fixpoint decode_loop (fuel : nat) (input : bytes) (actual : LogEntries)
  : option (LogEntries * option error * bytes) :=
  match fuel with
  | O => None
  | S fuel' =>
      match json_Decode input with
      | glager.Decode_EOF => Some (actual, None, input)
      | glager.Decode_error err => Some (actual, Some err, input)
      | glager.Decode_entry entry rest =>
          decode_loop fuel' rest (actual ++ [entry])
      end
  end.

Definition decode_and_search (fuel : nat) (lm : logMatcher.t)
    (actual : actual_value) (input : bytes)
  : option (result (outcome logMatcher.t)) :=
  match decode_loop fuel input [] with
  | None => None
  | Some (entries, stop, unread) =>
      let lm' := logMatcher.mk entries (logMatcher.expected lm) in
      let actual' := with_reader actual unread in
      match stop with
      | Some err => Some (Ok (mk_outcome _ false (Some err) lm' actual'))
      | None =>
          match search (logMatcher.actual lm')
                       (logMatcher.expected lm') with
          | Panic p => Some (Panic p)
          | Ok (success, err) =>
              Some (Ok (mk_outcome _ success err lm' actual'))
          end
      end
  end.

(** [None] when [fuel] iterations of the decoding loop were not enough;
    a panic when a comparison of data values panicked. *)
Definition Match (fuel : nat) (lm : logMatcher.t) (actual : actual_value)
  : option (result (outcome logMatcher.t)) :=
  match asReader actual with
  | None =>
      Some (Ok (mk_outcome _ false (Some (unsupported_actual actual))
                           lm actual))
  | Some input => decode_and_search fuel lm actual input
  end.
End Matcher.

End legacy.

(** ** The specification's vocabulary *)

Section Subsequence.
Context {A B : Type}.
(** [holds a e]: the actual record [a] contains the expected entry [e]. *)
Variable holds : A → B → bool.

(** Positions that start at or after [cursor] and strictly increase. *)
Fixpoint ascending (cursor : nat) (positions : list nat) : Prop :=
  match positions with
  | [] => True
  | i :: rest => (cursor ≤ i)%nat ∧ ascending (S i) rest
  end.

(** The expected entries occur as an order-preserving subsequence of the
    actual sequence from [cursor] on: one position per expected entry, in
    increasing order, so that no actual record serves two expectations. *)
Definition occurs_in_order (actual : list A) (cursor : nat)
    (expected : list B) : Prop :=
  ∃ positions : list nat,
    ascending cursor positions ∧
    Forall2 (λ i e, ∃ a, actual !! i = Some a ∧ holds a e = true)
            positions expected.

(** Follows the spec, step 2a and 2b: scan forward from index [i] over the
    [n] records up to the end, for the first one that contains [e]. *)
Fixpoint scan_forward (actual : list A) (e : B) (i n : nat) : option nat :=
  match n with
  | O => None
  | S n' =>
      match actual !! i with
      | Some a => if holds a e then Some i else scan_forward actual e (S i) n'
      | None => None
      end
  end.

Definition first_index (actual : list A) (cursor : nat) (e : B) : option nat :=
  scan_forward actual e cursor (List.length actual - cursor).

(** Follows the spec, steps 1 to 3: a cursor, advanced to [i + 1] past each
    match; failure as soon as an expected entry finds no record. *)
Fixpoint cursor_match (actual : list A) (cursor : nat) (expected : list B)
  : bool :=
  match expected with
  | [] => true
  | e :: rest =>
      match first_index actual cursor e with
      | Some i => cursor_match actual (i + 1) rest
      | None => false
      end
  end.
End Subsequence.

Section Decoding.
Variable json_Decode : bytes → glager.Decode_result.

(** [decodes input entries stop rest]: decoding [input] record by record
    yields [entries] and then stops at [rest], at a clean end of input
    ([stop = None]) or at a record the decoder rejects with [err]
    ([stop = Some err]). *)
Inductive decodes : bytes → list lager.LogFormat.t → option error → bytes → Prop :=
| decodes_EOF input :
    json_Decode input = glager.Decode_EOF →
    decodes input [] None input
| decodes_malformed input err :
    json_Decode input = glager.Decode_error err →
    decodes input [] (Some err) input
| decodes_entry input entry rest entries stop rest' :
    json_Decode input = glager.Decode_entry entry rest →
    decodes rest entries stop rest' →
    decodes input (entry :: entries) stop rest'.
End Decoding.

(** The iteration order of a [range] over a map visits each of its pairs
    once, in some order. *)
Definition visits_each_pair_once
    (range_order : gmap string value → list (string * value)) : Prop :=
  ∀ m, range_order m ≡ₚ map_to_list m.

(** [json.Marshal] never produces an empty document. *)
Definition never_empty (json_Marshal : value → error + string) : Prop :=
  ∀ v js, json_Marshal v = inr js → js ≠ "".

(** Each successful [Decode] consumes at least one byte. *)
Definition consumes_input (json_Decode : bytes → glager.Decode_result) : Prop :=
  ∀ input entry rest,
    json_Decode input = glager.Decode_entry entry rest →
    (List.length rest < List.length input)%nat.

(** The two values have one and the same serialized form. *)
Definition same_serialized_form (json_Marshal : value → error + string)
    (actualVal expectedVal : value) : Prop :=
  ∃ js, json_Marshal actualVal = inr js ∧ json_Marshal expectedVal = inr js.

(** Every value of the map has a serialized form. *)
Definition serializable (json_Marshal : value → error + string)
    (data : gmap string value) : Prop :=
  ∀ key val, data !! key = Some val → ∃ js, json_Marshal val = inr js.

(** The record [e] with another timestamp. *)
Definition with_Timestamp (e : lager.LogFormat.t) (timestamp : string)
  : lager.LogFormat.t :=
  lager.LogFormat.mk timestamp (lager.LogFormat.Source e)
    (lager.LogFormat.Message e) (lager.LogFormat.LogLevel e)
    (lager.LogFormat.Data e).

(** Whether the actual record [a] contains the expected entry [e]: the
    boolean [logEntry.contains] returns. *)
Definition contained (json_Marshal : value → error + string)
    (range_order : gmap string value → list (string * value))
    (a e : lager.LogFormat.t) : bool :=
  (glager.logEntry_contains json_Marshal range_order a e).1.

(** The same for the earlier glager.go. *)
Definition legacy_contained
    (range_order : gmap string value → list (string * value))
    (interface_ne : value → value → result bool)
    (a e : lager.LogFormat.t) : bool :=
  match legacy.LogEntry_contains range_order interface_ne a e with
  | Ok b => b
  | Panic _ => false
  end.

(** The message shows the type [ty] as [format.Object] prints it. *)
Definition names_type (message ty : string) : Prop :=
  ∃ before after, message = before +:+ "<" +:+ ty +:+ ">" +:+ after.

(** The value is a Go [string]. *)
Definition is_string (v : value) : Prop := ∃ s, v = VString s.

(** The argument list [k1, v1, k2, v2, ...] that spells out the pairs. *)
Definition arguments (pairs : list (string * value)) : list value :=
  flat_map (λ kv, [VString kv.1; kv.2]) pairs.

(** The same for the earlier glager.go, whose arguments are strings. *)
Definition legacy_arguments (pairs : list (string * string)) : list string :=
  flat_map (λ kv, [kv.1; kv.2]) pairs.

(** The data map after the pairs have been written into it, in order. *)
Definition written (pairs : list (string * value)) (data : gmap string value)
  : gmap string value :=
  foldl (λ d kv, <[kv.1:=kv.2]> d) data pairs.

(** The record [e] with another data map. *)
Definition with_Data (e : lager.LogFormat.t) (data : gmap string value)
  : lager.LogFormat.t :=
  lager.LogFormat.mk (lager.LogFormat.Timestamp e) (lager.LogFormat.Source e)
    (lager.LogFormat.Message e) (lager.LogFormat.LogLevel e) data.


(** What a child's session identifier starts with: the parent's identifier
    and a dot, or nothing when the parent has none. *)
Definition session_prefix {Sink : Type} (l : lager.logger Sink) : string :=
  if bool_decide (lager.sessionID l ≠ "") then lager.sessionID l +:+ "." else "".

(** The options the earlier glager.go lets a caller build. *)
Inductive legacy_builder_option : legacy.option_ → Prop :=
| legacy_built_Message msg : legacy_builder_option (legacy.Message msg)
| legacy_built_Action action : legacy_builder_option (legacy.Action action)
| legacy_built_Source src : legacy_builder_option (legacy.Source src)
| legacy_built_Data kv : legacy_builder_option (legacy.Data kv).

(** The options the package lets a caller build, with strings for the keys
    of [Data]. *)
Inductive builder_option : glager.option_ → Prop :=
| built_Message msg : builder_option (glager.Message msg)
| built_Action action : builder_option (glager.Action action)
| built_Source src : builder_option (glager.Source src)
| built_Data (kv : list value) :
    (∀ i k, kv !! (2 * i)%nat = Some k → is_string k) →
    builder_option (glager.Data kv).

(** Every value of the map is a Go [string]. *)
Definition string_valued (data : gmap string value) : Prop :=
  ∀ key val, data !! key = Some val → is_string val.

(** [!=] on two [interface{}] does not panic when its left operand holds a
    string: the operands then differ in type or are both strings. *)
Definition strings_comparable
    (interface_ne : value → value → result bool) : Prop :=
  ∀ s w, ∃ b, interface_ne (VString s) w = Ok b.

(** The given maps laid over one another, later ones on top. *)
Definition overlay (givenData : list (gmap string value)) : gmap string value :=
  foldl (λ acc dataArg, dataArg ∪ acc) ∅ givenData.

(** The loggers reached from [l] by [Session] (the new logger and the
    receiver afterwards), [WithData] and [RegisterSink]. *)
Inductive derived {Sink : Type} (l : lager.logger Sink)
  : lager.logger Sink → Prop :=
| derived_refl : derived l l
| derived_Session l' task' data' :
    derived l l' → derived l (lager.Session l' task' data').1
| derived_Session_receiver l' task' data' :
    derived l l' → derived l (lager.Session l' task' data').2
| derived_WithData l' data' :
    derived l l' → derived l (lager.WithData l' data')
| derived_RegisterSink l' sink :
    derived l l' → derived l (lager.RegisterSink l' sink).

(** The record a logging call hands to its sinks. *)
Definition logged {Sink : Type} (calls : list (Sink * lager.Logged))
  : list lager.LogFormat.t :=
  lager.Logged_format <$> calls.*2.

(** ** Sample collaborators, for closed instances of the theorems *)

Module sample.
Import lager.

Definition quote : string := String (ascii_of_nat 34) "".

(** A rendering of scalar values in the manner of [json.Marshal]; a
    channel or a function has none. *)
Definition json_Marshal (v : value) : error + string :=
  match v with
  | VNil => inr "null"
  | VBool b => inr (if b then "true" else "false")
  | VInt n => inr (pretty n)
  | VString s => inr (quote +:+ s +:+ quote)
  | VOther ty repr =>
      if bool_decide (ty = "float64" ∧ repr ≠ "") then inr repr
      else inl (errors_New ("json: unsupported type: " +:+ ty))
  end.

Definition range_order (m : gmap string value) : list (string * value) :=
  map_to_list m.

Definition record (level : LogLevel) : LogFormat.t :=
  LogFormat.mk "1500000000.000000000" "logger" "logger.action" level
    {[ "event" := VString "starting"; "task" := VString "my-task" ]}.

(** A one-byte-per-record stand-in for the decoder: [d], [i], [e], [f] are
    records of the four levels, anything else is malformed. *)
Definition json_Decode (input : bytes) : glager.Decode_result :=
  match input with
  | [] => glager.Decode_EOF
  | Byte.x64 :: rest => glager.Decode_entry (record DEBUG) rest
  | Byte.x69 :: rest => glager.Decode_entry (record INFO) rest
  | Byte.x65 :: rest => glager.Decode_entry (record ERROR) rest
  | Byte.x66 :: rest => glager.Decode_entry (record FATAL) rest
  | _ :: _ => glager.Decode_error (errors_New "invalid character")
  end.

#[global] Instance value_eq_dec : EqDecision value.
Proof. solve_decision. Defined.

Definition interface_ne (v w : value) : result bool :=
  match v, w with
  | VOther ty _, VOther ty' _ =>
      if bool_decide (ty = ty')
      then Panic (errors_New ("runtime error: comparing uncomparable type " +:+ ty))
      else Ok true
  | _, _ => Ok (bool_decide (v ≠ w))
  end.

(** A [*gbytes.Buffer] holding [contents], of which [unread] is still to
    be read through its [Read] method. *)
Definition gbytes_Buffer (contents unread : bytes) : actual_value :=
  mk_actual "*gbytes.Buffer" "{...}" None (Some contents) (Some unread).

(** A [*lagertest.TestSink] over a buffer holding [contents]. *)
Definition TestSink (contents : bytes) : actual_value :=
  mk_actual "*lagertest.TestSink" "{...}" (Some contents) None None.

(** A [*bufio.Reader] with [unread] ahead of it. *)
Definition bufio_Reader (unread : bytes) : actual_value :=
  mk_actual "*bufio.Reader" "{...}" None None (Some unread).

(** A plain [int]. *)
Definition an_int (n : Z) : actual_value :=
  mk_actual "int" (pretty n) None None None.

(** A stand-in for [formatTimestamp]: the seconds, a dot, the nanoseconds
    left over. *)
Definition formatTimestamp (t : Z) : string :=
  pretty (t `div` 1000000000) +:+ "." +:+ pretty (t `mod` 1000000000).
End sample.

(** ** Facts about the sample collaborators *)

Lemma pretty_N_go_nonempty (x : N) (s : string) :
  s ≠ "" → pretty_N_go x s ≠ "".
Proof.
  revert s. induction (N.lt_wf_0 x) as [x _ IH]; intros s Hs.
  destruct (decide (x = 0%N)) as [->|Hx].
  - by rewrite pretty_N_go_0.
  - rewrite pretty_N_go_step by lia. apply IH; [|done].
    apply N.div_lt; lia.
Qed.

Lemma pretty_Z_nonempty (n : Z) : pretty n ≠ "".
Proof.
  assert (∀ x : N, pretty x ≠ "") as HN.
  { intros x. unfold pretty, pretty_N. case_decide; [done|].
    rewrite pretty_N_go_step by lia. by apply pretty_N_go_nonempty. }
  destruct n as [|p|p]; unfold pretty, pretty_Z; [done|apply HN|done].
Qed.

Lemma sample_range_order : visits_each_pair_once sample.range_order.
Proof. intros m. reflexivity. Qed.

Lemma sample_json_Marshal : never_empty sample.json_Marshal.
Proof.
  intros v js. destruct v as [|[]|n|s|ty repr]; simpl; intros H;
    try (injection H as <-; try done).
  - apply pretty_Z_nonempty.
  - case_bool_decide; [injection H as <-; tauto|done].
Qed.

Lemma sample_json_Decode : consumes_input sample.json_Decode.
Proof.
  intros input entry rest. destruct input as [|b input']; [done|].
  destruct b; simpl; intros H; try done; injection H as _ <-; lia.
Qed.

(** ** Per-entry containment *)

Section Containment.
Import lager.
Variable json_Marshal : value → error + string.
Variable range_order : gmap string value → list (string * value).

Local Abbreviation contains_loop := (glager.contains_loop json_Marshal).
Local Abbreviation logEntryData_contains :=
  (glager.logEntryData_contains json_Marshal range_order).
Local Abbreviation logEntry_contains :=
  (glager.logEntry_contains json_Marshal range_order).
Local Abbreviation same_serialized_form :=
  (same_serialized_form json_Marshal).

Lemma contains_loop_shape pairs actual :
  contains_loop pairs actual = (true, None) ∨
  contains_loop pairs actual = (false, None) ∨
  ∃ k v e, (k, v) ∈ pairs ∧ json_Marshal v = inl e ∧
           contains_loop pairs actual = (false, Some e).
Proof.
  clear range_order.
  induction pairs as [|[k v] pairs IH]; simpl; [by left|].
  destruct (actual !! k) as [av|]; [|by right; left].
  destruct (json_Marshal v) as [e|js] eqn:Hv.
  - right; right. exists k, v, e. rewrite Hv. set_solver.
  - case_bool_decide; [by right; left|].
    destruct IH as [->|[->|(k' & v' & e & ? & ? & ->)]]; [by left|by right; left|].
    right; right. exists k', v', e. set_solver.
Qed.

Lemma contains_loop_all_serializable pairs actual :
  Forall (λ kv, ∃ js, json_Marshal kv.2 = inr js) pairs →
  (contains_loop pairs actual).2 = None.
Proof.
  induction 1 as [|[k v] pairs [js Hjs] _ IH]; simpl; [done|].
  destruct (actual !! k); [|done]. simpl in Hjs. rewrite Hjs.
  by case_bool_decide.
Qed.

Lemma contains_loop_true_serializable pairs actual :
  contains_loop pairs actual = (true, None) →
  Forall (λ kv, ∃ js, json_Marshal kv.2 = inr js) pairs.
Proof.
  induction pairs as [|[k v] pairs IH]; simpl; [by constructor|].
  destruct (actual !! k); [|done].
  destruct (json_Marshal v) as [e|js] eqn:Hv; [done|].
  case_bool_decide; [done|]. intros Hrest. constructor; eauto.
Qed.

Lemma contains_loop_true pairs actual :
  never_empty json_Marshal →
  contains_loop pairs actual = (true, None) ↔
  Forall (λ kv, ∃ actualVal, actual !! kv.1 = Some actualVal ∧
                same_serialized_form actualVal kv.2) pairs.
Proof.
  intros Hne. induction pairs as [|[k v] pairs IH]; simpl.
  { split; [by constructor|done]. }
  rewrite Forall_cons. simpl. rewrite <- IH. clear IH.
  destruct (actual !! k) as [av|]; [|split; [done|by intros [(?&?&?) _]]].
  destruct (json_Marshal v) as [e|js] eqn:Hv.
  { split; [done|]. intros [(? & _ & js & _ & ?) _]. congruence. }
  case_bool_decide as Hjs.
  - split; [done|]. intros [(av' & Heq & js' & Hav & Hjs') _].
    injection Heq as <-. rewrite Hav in Hjs. congruence.
  - split.
    + intros Hrest. split; [|done]. exists av. split; [done|]. exists js.
      split; [|done]. destruct (json_Marshal av) as [?|js'] eqn:Hav.
      * subst js. by apply Hne in Hv.
      * by subst js'.
    + by intros [_ ?].
Qed.

Lemma logEntryData_contains_true actual expected :
  visits_each_pair_once range_order →
  never_empty json_Marshal →
  logEntryData_contains actual expected = (true, None) ↔
  ∀ key expectedVal, expected !! key = Some expectedVal →
    ∃ actualVal, actual !! key = Some actualVal ∧
                 same_serialized_form actualVal expectedVal.
Proof.
  intros Hrange Hne. unfold glager.logEntryData_contains.
  rewrite contains_loop_true by done. rewrite Forall_forall. split.
  - intros H key ev Hkey. apply (H (key, ev)).
    rewrite (Hrange expected). by apply elem_of_map_to_list.
  - intros H [key ev] Hin. apply H.
    rewrite (Hrange expected) in Hin. by apply elem_of_map_to_list.
Qed.

Lemma contains_loop_extra_key pairs actual key val :
  key ∉ pairs.*1 →
  contains_loop pairs (<[key:=val]> actual) = contains_loop pairs actual.
Proof.
  clear range_order.
  induction pairs as [|[k v] pairs IH]; simpl; [done|].
  intros Hnot. rewrite lookup_insert_ne by set_solver.
  rewrite IH by set_solver. done.
Qed.

(** The outcome of [logEntry.contains] has one of three shapes. *)
Lemma logEntry_contains_shape actual expected :
  logEntry_contains actual expected = (true, None) ∨
  logEntry_contains actual expected = (false, None) ∨
  ∃ k v e, (k, v) ∈ range_order (LogFormat.Data expected) ∧
           json_Marshal v = inl e ∧
           logEntry_contains actual expected = (false, Some e).
Proof.
  unfold glager.logEntry_contains, glager.logEntryData_contains, glager.logData.
  repeat (case_bool_decide; [by right; left|]).
  destruct (contains_loop_shape (range_order (LogFormat.Data expected))
              (LogFormat.Data actual))
    as [->|[->|(k & v & e & ? & ? & ->)]]; [by left|by right; left|].
  right; right. by exists k, v, e.
Qed.
End Containment.

(** C2. Per-entry containment, [logEntry.contains] returning [(true, nil)],
    holds if and only if: the expected source, when non-empty, equals the
    actual source; the expected message, when non-empty, equals the actual
    message; the levels are equal, whatever the expected level is; and every
    key of the expected data is present in the actual data with a value of
    the same serialized form. Keys of the actual data that the expectation
    does not mention change nothing. *)
Theorem logEntry_contains_iff
    (json_Marshal : value → error + string)
    (range_order : gmap string value → list (string * value))
    (actual expected : lager.LogFormat.t) :
  visits_each_pair_once range_order →
  never_empty json_Marshal →
  (glager.logEntry_contains json_Marshal range_order actual expected
     = (true, None) ↔
   (lager.LogFormat.Source expected ≠ "" →
      lager.LogFormat.Source actual = lager.LogFormat.Source expected) ∧
   (lager.LogFormat.Message expected ≠ "" →
      lager.LogFormat.Message actual = lager.LogFormat.Message expected) ∧
   lager.LogFormat.LogLevel actual = lager.LogFormat.LogLevel expected ∧
   (∀ key expectedVal,
      lager.LogFormat.Data expected !! key = Some expectedVal →
      ∃ actualVal,
        lager.LogFormat.Data actual !! key = Some actualVal ∧
        same_serialized_form json_Marshal actualVal expectedVal)) ∧
  (∀ key val,
     lager.LogFormat.Data expected !! key = None →
     glager.logEntry_contains json_Marshal range_order
       (glager.set_Data actual key val) expected
     = glager.logEntry_contains json_Marshal range_order actual expected).
Proof.
  intros Hrange Hne. split.
  - rewrite <- (logEntryData_contains_true json_Marshal range_order
                  (lager.LogFormat.Data actual) (lager.LogFormat.Data expected))
      by done.
    unfold glager.logEntry_contains, glager.logData.
    case_bool_decide as Hsource.
    { split; [done|]. intros (Hs & _). destruct Hsource as [? Hdiff].
      exfalso. apply Hdiff, Hs. assumption. }
    case_bool_decide as Hmessage.
    { split; [done|]. intros (_ & Hm & _). destruct Hmessage as [? Hdiff].
      exfalso. apply Hdiff, Hm. assumption. }
    case_bool_decide as Hlevel.
    { split; [done|]. by intros (_ & _ & Hl & _). }
    assert (lager.LogFormat.Source expected ≠ "" →
            lager.LogFormat.Source actual = lager.LogFormat.Source expected).
    { intros ?. destruct (decide (lager.LogFormat.Source actual
                                  = lager.LogFormat.Source expected)); tauto. }
    assert (lager.LogFormat.Message expected ≠ "" →
            lager.LogFormat.Message actual = lager.LogFormat.Message expected).
    { intros ?. destruct (decide (lager.LogFormat.Message actual
                                  = lager.LogFormat.Message expected)); tauto. }
    destruct (glager.logEntryData_contains json_Marshal range_order
                (lager.LogFormat.Data actual) (lager.LogFormat.Data expected))
      as [containsData [e|]].
    + split; [done|]. by intros (_ & _ & _ & ?).
    + split; [by intros [= ->]|]. by intros (_ & _ & _ & [= ->]).
  - intros key val Hnone.
    unfold glager.logEntry_contains, glager.logEntryData_contains,
      glager.logData. simpl.
    rewrite contains_loop_extra_key; [done|].
    intros Hin. apply list_elem_of_fmap in Hin as [[k v] [-> Hin]].
    rewrite (Hrange _) in Hin. apply elem_of_map_to_list in Hin.
    simpl in Hnone. congruence.
Qed.

Lemma logEntry_contains_iff_witness :
  glager.logEntry_contains sample.json_Marshal sample.range_order
    (lager.LogFormat.mk "1500000000.000000001" "logger" "logger.action"
       lager.INFO
       {[ "event" := VString "starting"; "task" := VString "my-task" ]})
    (lager.LogFormat.mk "" "" "" lager.INFO {[ "event" := VString "starting" ]})
  = (true, None).
Proof.
  apply (logEntry_contains_iff sample.json_Marshal sample.range_order _ _
           sample_range_order sample_json_Marshal).
  simpl. split; [done|]. split; [done|]. split; [reflexivity|].
  intros key expectedVal Hkey.
  apply lookup_singleton_Some in Hkey as [<- <-].
  exists (VString "starting"). split; [reflexivity|].
  eexists. split; reflexivity.
Defined.

(** ** Timestamps *)

(** Induction over an argument list taken two at a time. *)
Lemma pairs_ind {A : Type} (P : list A → Prop) :
  P [] → (∀ x, P [x]) → (∀ x y l, P l → P (x :: y :: l)) → ∀ l, P l.
Proof.
  intros Hnil Hone Hstep l.
  assert (P l ∧ ∀ x, P (x :: l)) as [? _]; [|done].
  induction l as [|y l [IH1 IH2]]; split; auto.
Qed.

Lemma legacy_Data_loop_Timestamp kv e e' :
  legacy.Data_loop kv e = Ok e' →
  lager.LogFormat.Timestamp e' = lager.LogFormat.Timestamp e.
Proof.
  revert e. induction kv as [|x|x y kv IH] using pairs_ind; intros e; simpl.
  - by intros [= <-].
  - done.
  - intros H. by rewrite (IH _ H).
Qed.

Lemma legacy_builder_option_Timestamp option e e' :
  legacy_builder_option option → option e = Ok e' →
  lager.LogFormat.Timestamp e' = lager.LogFormat.Timestamp e.
Proof.
  intros [msg|action|src|kv]; try by intros [= <-].
  unfold legacy.Data. apply legacy_Data_loop_Timestamp.
Qed.

Lemma legacy_apply_options_Timestamp options e e' :
  Forall legacy_builder_option options →
  legacy.apply_options options e = Ok e' →
  lager.LogFormat.Timestamp e' = lager.LogFormat.Timestamp e.
Proof.
  intros Hall. revert e.
  induction Hall as [|option options Hopt _ IH]; intros e; simpl.
  - by intros [= <-].
  - destruct (option e) as [e1|p] eqn:He1; [|done].
    intros H. rewrite (IH _ H).
    by apply (legacy_builder_option_Timestamp option).
Qed.

(** C7, as amended. In package glager the outcome of [logEntry.contains] does
    not depend on the timestamp of either record. In the earlier glager.go,
    [LogEntry.contains] does not depend on the actual timestamp when the
    expected timestamp is empty, which it is in every expectation made by
    [Entry] from the options a caller can build; an expectation with a
    non-empty timestamp is contained only in records of that very
    timestamp. *)
Theorem contains_and_timestamps
    (json_Marshal : value → error + string)
    (range_order : gmap string value → list (string * value))
    (interface_ne : value → value → result bool)
    (actual expected : lager.LogFormat.t) (ts ts' : string) :
  glager.logEntry_contains json_Marshal range_order
    (with_Timestamp actual ts) (with_Timestamp expected ts')
  = glager.logEntry_contains json_Marshal range_order actual expected
  ∧ (lager.LogFormat.Timestamp expected = "" →
     legacy.LogEntry_contains range_order interface_ne
       (with_Timestamp actual ts) expected
     = legacy.LogEntry_contains range_order interface_ne actual expected)
  ∧ (lager.LogFormat.Timestamp expected ≠ "" →
     legacy.LogEntry_contains range_order interface_ne actual expected
       = Ok true →
     lager.LogFormat.Timestamp actual = lager.LogFormat.Timestamp expected)
  ∧ (∀ level options e,
       Forall legacy_builder_option options →
       legacy.Entry level options = Ok e →
       lager.LogFormat.Timestamp e = "").
Proof.
  split; [reflexivity|]. split; [|split].
  - intros Hempty. unfold legacy.LogEntry_contains. simpl. rewrite Hempty.
    rewrite !(bool_decide_false ("" ≠ "" ∧ _)) by (by intros [? _]). done.
  - intros Hset. unfold legacy.LogEntry_contains.
    repeat (case_bool_decide; [done|]).
    intros _.
    destruct (decide (lager.LogFormat.Timestamp actual
                      = lager.LogFormat.Timestamp expected)); tauto.
  - intros level options e Hall H.
    by rewrite (legacy_apply_options_Timestamp _ _ _ Hall H).
Qed.

Lemma contains_and_timestamps_witness :
  legacy.LogEntry_contains sample.range_order sample.interface_ne
    (with_Timestamp (sample.record lager.INFO) "1500000000.000000007")
    (lager.LogFormat.mk "" "" "" lager.INFO ∅)
  = legacy.LogEntry_contains sample.range_order sample.interface_ne
      (sample.record lager.INFO) (lager.LogFormat.mk "" "" "" lager.INFO ∅).
Proof.
  apply (contains_and_timestamps sample.json_Marshal sample.range_order
           sample.interface_ne (sample.record lager.INFO)
           (lager.LogFormat.mk "" "" "" lager.INFO ∅)
           "1500000000.000000007" "").
  reflexivity.
Defined.

(** In the earlier glager.go the same record contains an expectation or not
    according to the expectation's timestamp alone. *)
Lemma legacy_contains_reads_timestamp :
  legacy.LogEntry_contains sample.range_order sample.interface_ne
    (lager.LogFormat.mk "1500000000.000000001" "logger" "logger.action"
       lager.INFO ∅)
    (lager.LogFormat.mk "1500000000.000000001" "" "" lager.INFO ∅)
  = Ok true
  ∧ legacy.LogEntry_contains sample.range_order sample.interface_ne
      (lager.LogFormat.mk "1500000000.000000001" "logger" "logger.action"
         lager.INFO ∅)
      (lager.LogFormat.mk "1500000000.000000002" "" "" lager.INFO ∅)
    = Ok false.
Proof. split; reflexivity. Qed.

(** ** Searching with a cursor *)

Section SubsequenceFacts.
Context {A B : Type}.
Variable holds : A → B → bool.

Lemma ascending_weaken cursor cursor' positions :
  (cursor ≤ cursor')%nat →
  ascending cursor' positions → ascending cursor positions.
Proof. destruct positions; simpl; [done|]. intros ? [? ?]. split; [lia|done]. Qed.

Lemma scan_forward_Some actual e i n j :
  scan_forward holds actual e i n = Some j →
  (i ≤ j < i + n)%nat ∧
  (∃ a, actual !! j = Some a ∧ holds a e = true) ∧
  (∀ k a, (i ≤ k < j)%nat → actual !! k = Some a → holds a e = false).
Proof.
  revert i. induction n as [|n IH]; intros i; simpl; [done|].
  destruct (actual !! i) as [a|] eqn:Ha; [|done].
  destruct (holds a e) eqn:Hholds.
  - intros [= <-]. split; [lia|]. split; [by exists a|]. intros; lia.
  - intros H. apply IH in H as (? & ? & Hbefore).
    split; [lia|]. split; [done|]. intros k a' Hk Ha'.
    destruct (decide (k = i)) as [->|]; [congruence|].
    apply (Hbefore k); [lia|done].
Qed.

Lemma scan_forward_None actual e i n :
  scan_forward holds actual e i n = None →
  (List.length actual ≤ i + n)%nat →
  ∀ k a, (i ≤ k)%nat → actual !! k = Some a → holds a e = false.
Proof.
  revert i. induction n as [|n IH]; intros i; simpl.
  - intros _ Hlen k a Hk Ha. apply lookup_lt_Some in Ha. lia.
  - destruct (actual !! i) as [a|] eqn:Ha.
    + destruct (holds a e) eqn:Hholds; [done|].
      intros H Hlen k a' Hk Ha'.
      destruct (decide (k = i)) as [->|]; [congruence|].
      apply (IH (S i) H) with (k := k); [lia|lia|done].
    + intros _ _ k a' Hk Ha'. apply lookup_ge_None in Ha.
      apply lookup_lt_Some in Ha'. lia.
Qed.

(** [first_index] is the lowest index at or after the cursor whose record
    contains the entry. *)
Lemma first_index_Some actual cursor e i :
  first_index holds actual cursor e = Some i ↔
  (cursor ≤ i)%nat ∧
  (∃ a, actual !! i = Some a ∧ holds a e = true) ∧
  (∀ k a, (cursor ≤ k < i)%nat → actual !! k = Some a → holds a e = false).
Proof.
  unfold first_index. split.
  - intros H. apply scan_forward_Some in H as (? & ? & ?).
    split; [lia|done].
  - intros (Hle & (a & Ha & Hholds) & Hbefore).
    destruct (scan_forward holds actual e cursor (List.length actual - cursor))
      as [j|] eqn:Hscan.
    + apply scan_forward_Some in Hscan as (? & (a' & Ha' & Hholds') & Hbefore').
      f_equal. destruct (Nat.lt_trichotomy j i) as [?|[?|?]]; [|done|].
      * rewrite (Hbefore j a') in Hholds'; [done|lia|done].
      * rewrite (Hbefore' i a) in Hholds; [done|lia|done].
    + assert (holds a e = false) as Hno; [|congruence].
      apply (scan_forward_None _ _ _ _ Hscan) with (k := i); [lia|done|done].
Qed.

Lemma first_index_None actual cursor e :
  first_index holds actual cursor e = None ↔
  ∀ k a, (cursor ≤ k)%nat → actual !! k = Some a → holds a e = false.
Proof.
  unfold first_index. split.
  - intros H. apply (scan_forward_None _ _ _ _ H). lia.
  - intros Hall.
    destruct (scan_forward holds actual e cursor (List.length actual - cursor))
      as [j|] eqn:Hscan; [|done].
    apply scan_forward_Some in Hscan as (? & (a & Ha & Hholds) & _).
    rewrite (Hall j a) in Hholds; [done|lia|done].
Qed.

(** The cursor search succeeds exactly when the expected entries occur in
    order. *)
Lemma cursor_match_occurs actual cursor expected :
  cursor_match holds actual cursor expected = true ↔
  occurs_in_order holds actual cursor expected.
Proof.
  revert cursor. induction expected as [|e expected IH]; intros cursor; simpl.
  { split; [|done]. intros _. exists []. split; [done|constructor]. }
  destruct (first_index holds actual cursor e) as [i|] eqn:Hfirst.
  - rewrite IH. apply first_index_Some in Hfirst as (Hle & Hat & Hbefore).
    split.
    + intros (positions & Hasc & Hall). exists (i :: positions).
      split; [|by constructor]. simpl. by rewrite <- Nat.add_1_r.
    + intros (positions & Hasc & Hall).
      destruct positions as [|p positions]; [by inversion Hall|].
      apply Forall2_cons in Hall as [(a & Ha & Hholds) Hall].
      destruct Hasc as [Hp Hasc]. exists positions. split; [|done].
      apply (ascending_weaken _ (S p)); [|done].
      destruct (decide (p < i)%nat); [|lia].
      rewrite (Hbefore p a) in Hholds; [done|lia|done].
  - split; [done|]. intros (positions & Hasc & Hall).
    destruct positions as [|p positions]; [by inversion Hall|].
    apply Forall2_cons in Hall as [(a & Ha & Hholds) Hall].
    destruct Hasc as [Hp _].
    rewrite (proj1 (first_index_None _ _ _) Hfirst p a) in Hholds; done.
Qed.

Lemma scan_forward_step actual e cursor a rest :
  drop cursor actual = a :: rest →
  scan_forward holds actual e cursor (S (List.length rest))
  = if holds a e then Some cursor
    else scan_forward holds actual e (S cursor) (List.length rest).
Proof.
  intros Hdrop. simpl.
  assert (actual !! cursor = Some a) as ->; [|done].
  pose proof (lookup_drop actual cursor 0) as Hlook.
  rewrite Hdrop, Nat.add_0_r in Hlook. done.
Qed.

Lemma drop_step (actual : list A) cursor a rest :
  drop cursor actual = a :: rest → drop (S cursor) actual = rest.
Proof.
  intros Hdrop. change (S cursor) with (1 + cursor)%nat.
  rewrite Nat.add_comm, <- drop_drop. by rewrite Hdrop.
Qed.

Lemma first_index_drop actual cursor e :
  first_index holds actual cursor e
  = scan_forward holds actual e cursor (List.length (drop cursor actual)).
Proof. unfold first_index. by rewrite length_drop. Qed.
End SubsequenceFacts.

(** ** The search of [Match] *)

Section SearchFacts.
Import lager.
Variable json_Marshal : value → error + string.
Variable json_Decode : bytes → glager.Decode_result.
Variable range_order : gmap string value → list (string * value).

Local Abbreviation logEntry_contains :=
  (glager.logEntry_contains json_Marshal range_order).
Local Abbreviation indexOf_from :=
  (glager.indexOf_from json_Marshal range_order).
Local Abbreviation indexOf := (glager.indexOf json_Marshal range_order).
Local Abbreviation search := (glager.search json_Marshal range_order).
Local Abbreviation holds := (contained json_Marshal range_order).

Lemma contained_true a e :
  holds a e = true ↔ logEntry_contains a e = (true, None).
Proof.
  unfold contained.
  destruct (logEntry_contains_shape json_Marshal range_order a e)
    as [->|[->|(? & ? & ? & _ & _ & ->)]]; simpl; split; congruence.
Qed.

Lemma logEntry_contains_error a e b err :
  logEntry_contains a e = (b, Some err) →
  (glager.contains_loop json_Marshal (range_order (LogFormat.Data e))
     (LogFormat.Data a)).2 = Some err.
Proof.
  unfold glager.logEntry_contains, glager.logEntryData_contains, glager.logData.
  repeat (case_bool_decide; [done|]).
  destruct (glager.contains_loop _ _ _) as [c [e'|]]; simpl; congruence.
Qed.

Lemma logEntry_contains_true_data a e :
  logEntry_contains a e = (true, None) →
  glager.contains_loop json_Marshal (range_order (LogFormat.Data e))
    (LogFormat.Data a) = (true, None).
Proof.
  unfold glager.logEntry_contains, glager.logEntryData_contains, glager.logData.
  repeat (case_bool_decide; [done|]).
  destruct (glager.contains_loop _ _ _) as [c [e'|]]; simpl; congruence.
Qed.

(** An entry whose test fails with an error on one record is contained in
    no record. *)
Lemma error_never_contained a e b err a' :
  logEntry_contains a e = (b, Some err) → holds a' e = false.
Proof.
  intros Herr. apply logEntry_contains_error in Herr.
  destruct (holds a' e) eqn:Htrue; [|done].
  apply contained_true, logEntry_contains_true_data,
    contains_loop_true_serializable in Htrue.
  rewrite (contains_loop_all_serializable _ _ _ Htrue) in Herr. done.
Qed.

(** What [indexOf] returns, against the forward scan of the spec. *)
Lemma indexOf_from_scan all e entries cursor base :
  drop cursor all = entries →
  match indexOf_from base entries e with
  | (i, true, None) =>
      ∃ k, i = (base + k)%nat ∧
           scan_forward holds all e cursor (List.length entries)
           = Some (cursor + k)%nat
  | (i, false, None) =>
      i = 0%nat ∧
      scan_forward holds all e cursor (List.length entries) = None
  | (i, found, Some err) =>
      i = 0%nat ∧ found = false ∧
      ∃ a, a ∈ entries ∧ logEntry_contains a e = (false, Some err)
  end.
Proof.
  revert cursor base. induction entries as [|a rest IH]; intros cursor base Hdrop.
  { simpl. done. }
  cbn [glager.indexOf_from List.length].
  rewrite (scan_forward_step _ _ _ _ a rest Hdrop).
  change (holds a e) with (logEntry_contains a e).1.
  destruct (logEntry_contains_shape json_Marshal range_order a e)
    as [Hc|[Hc|(? & ? & err & _ & _ & Hc)]]; rewrite Hc; simpl.
  - exists 0%nat. by rewrite !Nat.add_0_r.
  - specialize (IH (S cursor) (S base) (drop_step _ _ _ _ Hdrop)).
    destruct (indexOf_from (S base) rest e) as [[i [|]] [err|]].
    + destruct IH as (-> & ? & a' & ? & ?). split; [done|]. split; [done|].
      exists a'. split; [by right|done].
    + destruct IH as (k & -> & ->). exists (S k). split; [lia|f_equal; lia].
    + destruct IH as (-> & ? & a' & ? & ?). split; [done|]. split; [done|].
      exists a'. split; [by right|done].
    + destruct IH as (-> & ->). done.
  - split; [done|]. split; [done|]. exists a. split; [by left|done].
Qed.

(** The search of [Match] is the cursor search of the spec: its boolean is
    the spec's, whether or not it ends with an error. *)
Lemma search_cursor_match all cursor expected :
  (search (drop cursor all) expected).1
  = cursor_match holds all cursor expected.
Proof.
  revert cursor. induction expected as [|e expected IH]; intros cursor; [done|].
  cbn [glager.search cursor_match]. rewrite first_index_drop.
  pose proof (indexOf_from_scan all e (drop cursor all) cursor 0 eq_refl) as Hscan.
  unfold glager.indexOf.
  destruct (indexOf_from 0 (drop cursor all) e) as [[i [|]] [err|]].
  - destruct Hscan as (_ & ? & _); done.
  - destruct Hscan as (k & -> & ->). rewrite drop_drop. simpl.
    rewrite <- IH. by rewrite Nat.add_assoc.
  - destruct Hscan as (_ & _ & a & _ & Ha). simpl.
    destruct (scan_forward _ _ _ _ _) as [j|] eqn:Hj; [|done].
    apply scan_forward_Some in Hj as (_ & (a' & _ & Htrue) & _).
    by rewrite (error_never_contained a e false err a') in Htrue.
  - destruct Hscan as (_ & ->). done.
Qed.

(** The error of a search, if any, is the failure to serialize a value of
    an expected entry; a successful search has none. *)
Lemma search_err actual expected :
  match search actual expected with
  | (true, None) | (false, None) => True
  | (true, Some _) => False
  | (false, Some err) =>
      ∃ e key val, e ∈ expected ∧ (key, val) ∈ range_order (LogFormat.Data e) ∧
                   json_Marshal val = inl err
  end.
Proof.
  revert actual. induction expected as [|e expected IH]; intros actual; [done|].
  cbn [glager.search]. unfold glager.indexOf.
  pose proof (indexOf_from_scan actual e (drop 0 actual) 0 0 eq_refl) as Hscan.
  rewrite drop_0 in Hscan.
  destruct (indexOf_from 0 actual e) as [[i [|]] [err|]].
  - destruct Hscan as (_ & ? & _); done.
  - specialize (IH (drop (i + 1) actual)).
    destruct (search (drop (i + 1) actual) expected) as [[|] [err|]]; try done.
    destruct IH as (e' & key & val & ? & ? & ?). exists e', key, val.
    split; [by right|done].
  - destruct Hscan as (_ & _ & a & _ & Ha).
    destruct (logEntry_contains_shape json_Marshal range_order a e)
      as [Hc|[Hc|(key & val & err' & ? & ? & Hc)]]; rewrite Hc in Ha; try done.
    injection Ha as <-. exists e, key, val. split; [by left|done].
  - done.
Qed.

Lemma decode_loop_decodes input entries stop rest fuel acc :
  decodes json_Decode input entries stop rest →
  (List.length entries < fuel)%nat →
  glager.decode_loop json_Decode fuel input acc
  = Some (acc ++ entries, stop, rest).
Proof.
  intros Hdec. revert fuel acc.
  induction Hdec as [input H|input err H|input entry rest entries stop rest' H _ IH];
    intros [|fuel] acc Hfuel; simpl in *; try lia; rewrite H.
  - by rewrite app_nil_r.
  - by rewrite app_nil_r.
  - rewrite IH by lia. by rewrite <- app_assoc.
Qed.

(** Under [consumes_input] every input decodes, to at most as many
    entries as it has bytes. *)
Lemma decodes_total input :
  consumes_input json_Decode →
  ∃ entries stop rest,
    decodes json_Decode input entries stop rest ∧
    (List.length entries ≤ List.length input)%nat.
Proof.
  intros Hconsumes. remember (List.length input) as n eqn:Hn.
  revert input Hn. induction (lt_wf n) as [n _ IH]. intros input ->.
  destruct (json_Decode input) as [|err|entry rest] eqn:Hd.
  - exists [], None, input. split; [by constructor|simpl; lia].
  - exists [], (Some err), input. split; [by constructor|simpl; lia].
  - pose proof (Hconsumes _ _ _ Hd) as Hlt.
    destruct (IH _ Hlt rest eq_refl) as (entries & stop & rest' & Hdec & Hlen).
    exists (entry :: entries), stop, rest'.
    split; [by econstructor|simpl; lia].
Qed.

(** [Match] on a source whose bytes decode to [entries]. *)
Lemma Match_decodes fuel lm actual input is_actual entries stop rest :
  glager.reader_of actual = Some (input, is_actual) →
  decodes json_Decode input entries stop rest →
  (List.length entries < fuel)%nat →
  glager.Match json_Marshal json_Decode range_order fuel lm actual
  = Some {| success := match stop with
                       | Some _ => false
                       | None => (search entries (glager.logMatcher.expected lm)).1
                       end;
            err := match stop with
                   | Some e => Some e
                   | None => (search entries (glager.logMatcher.expected lm)).2
                   end;
            matcher := glager.logMatcher.mk entries (glager.logMatcher.expected lm);
            source := if is_actual then with_reader actual rest else actual |}.
Proof.
  intros Hreader Hdec Hfuel. unfold glager.Match, glager.decode_and_search.
  rewrite Hreader, (decode_loop_decodes _ _ _ _ _ [] Hdec Hfuel). simpl.
  destruct stop; [done|]. by destruct (search _ _).
Qed.
End SearchFacts.

(** *** The search of the earlier glager.go *)

Section LegacySearchFacts.
Import lager.
Variable range_order : gmap string value → list (string * value).
Variable interface_ne : value → value → result bool.

Local Abbreviation lholds := (legacy_contained range_order interface_ne).

Lemma legacy_indexOf_from_scan all e entries cursor base :
  drop cursor all = entries →
  match legacy.indexOf_from range_order interface_ne base entries e with
  | Ok (i, true) =>
      ∃ k, i = (base + k)%nat ∧
           scan_forward lholds all e cursor (List.length entries)
           = Some (cursor + k)%nat
  | Ok (i, false) =>
      scan_forward lholds all e cursor (List.length entries) = None
  | Panic _ => True
  end.
Proof.
  revert cursor base. induction entries as [|a rest IH]; intros cursor base Hdrop.
  { done. }
  cbn [legacy.indexOf_from List.length].
  rewrite (scan_forward_step _ _ _ _ a rest Hdrop).
  change (lholds a e)
    with (match legacy.LogEntry_contains range_order interface_ne a e with
          | Ok b => b
          | Panic _ => false
          end).
  destruct (legacy.LogEntry_contains range_order interface_ne a e) as [[|]|p].
  - exists 0%nat. by rewrite !Nat.add_0_r.
  - specialize (IH (S cursor) (S base) (drop_step _ _ _ _ Hdrop)).
    destruct (legacy.indexOf_from _ _ (S base) rest e) as [[i [|]]|p]; [|done..].
    destruct IH as (k & -> & ->). exists (S k). split; [lia|f_equal; lia].
  - done.
Qed.

(** When no comparison panics, the search of the earlier glager.go is the
    cursor search of the spec and carries no error. *)
Lemma legacy_search_cursor_match all cursor expected :
  match legacy.search range_order interface_ne (drop cursor all) expected with
  | Ok (success, err) =>
      err = None ∧ success = cursor_match lholds all cursor expected
  | Panic _ => True
  end.
Proof.
  revert cursor. induction expected as [|e expected IH]; intros cursor; [done|].
  cbn [legacy.search cursor_match]. rewrite first_index_drop.
  pose proof (legacy_indexOf_from_scan all e (drop cursor all) cursor 0 eq_refl)
    as Hscan.
  unfold legacy.indexOf.
  destruct (legacy.indexOf_from _ _ 0 (drop cursor all) e) as [[i [|]]|p].
  - destruct Hscan as (k & -> & ->). rewrite drop_drop. simpl.
    specialize (IH (cursor + k + 1)%nat). by rewrite Nat.add_assoc.
  - by rewrite Hscan.
  - done.
Qed.
End LegacySearchFacts.

Lemma legacy_decode_loop_same json_Decode fuel input acc :
  legacy.decode_loop json_Decode fuel input acc
  = glager.decode_loop json_Decode fuel input acc.
Proof.
  revert input acc. induction fuel as [|fuel IH]; intros input acc; simpl; [done|].
  destruct (json_Decode input); auto.
Qed.

Lemma legacy_Match_decodes json_Decode range_order interface_ne
    fuel lm actual input entries stop rest :
  asReader actual = Some input →
  decodes json_Decode input entries stop rest →
  (List.length entries < fuel)%nat →
  legacy.Match json_Decode range_order interface_ne fuel lm actual
  = Some match stop with
         | Some e =>
             Ok (mk_outcome _ false (Some e)
                   (legacy.logMatcher.mk entries (legacy.logMatcher.expected lm))
                   (with_reader actual rest))
         | None =>
             match legacy.search range_order interface_ne entries
                     (legacy.logMatcher.expected lm) with
             | Panic p => Panic p
             | Ok (success, err) =>
                 Ok (mk_outcome _ success err
                       (legacy.logMatcher.mk entries
                          (legacy.logMatcher.expected lm))
                       (with_reader actual rest))
             end
         end.
Proof.
  intros Hreader Hdec Hfuel. unfold legacy.Match, legacy.decode_and_search.
  rewrite Hreader, legacy_decode_loop_same,
    (decode_loop_decodes json_Decode _ _ _ _ _ [] Hdec Hfuel). simpl.
  destruct stop; [done|]. by destruct (legacy.search _ _ _ _) as [[? ?]|].
Qed.

(** C1, as amended. On a source that decodes cleanly to [entries], [Match]
    returns, and its boolean is the cursor search of the spec over [entries]
    from cursor 0: each expected entry in turn takes the first record at or
    after the cursor that contains it, and the cursor moves just past that
    record. So it is true exactly when the expected entries occur in
    [entries] in order, no record serving twice. A true result carries no
    error. When the search fails the error is nil provided every data value
    of the expected entries can be serialized; otherwise the result may be
    false together with the serialization error of one of those values.
    [Match] of the earlier glager.go, on a reader, returns the same cursor
    search with a nil error, unless a comparison of data values panics. *)
Theorem Match_finds_in_order
    (json_Marshal : value → error + string)
    (json_Decode : bytes → glager.Decode_result)
    (range_order : gmap string value → list (string * value))
    (interface_ne : value → value → result bool)
    (fuel : nat) (lm : glager.logMatcher.t) (llm : legacy.logMatcher.t)
    (actual : actual_value)
    (input : bytes) (is_actual : bool)
    (entries : list lager.LogFormat.t) (rest : bytes) :
  visits_each_pair_once range_order →
  glager.reader_of actual = Some (input, is_actual) →
  decodes json_Decode input entries None rest →
  (List.length entries < fuel)%nat →
  (∃ r,
    glager.Match json_Marshal json_Decode range_order fuel lm actual = Some r ∧
    glager.logMatcher.actual (matcher r) = entries ∧
    success r = cursor_match (contained json_Marshal range_order) entries 0
                  (glager.logMatcher.expected lm) ∧
    (∀ cursor e i,
       first_index (contained json_Marshal range_order) entries cursor e = Some i ↔
       (cursor ≤ i)%nat ∧
       (∃ a, entries !! i = Some a ∧
             glager.logEntry_contains json_Marshal range_order a e = (true, None)) ∧
       (∀ k a, (cursor ≤ k < i)%nat → entries !! k = Some a →
               glager.logEntry_contains json_Marshal range_order a e ≠ (true, None))) ∧
    (success r = true ↔
     occurs_in_order (contained json_Marshal range_order) entries 0
       (glager.logMatcher.expected lm)) ∧
    (success r = true → err r = None) ∧
    (Forall (λ e, serializable json_Marshal (lager.LogFormat.Data e))
            (glager.logMatcher.expected lm) →
     err r = None) ∧
    (∀ e, err r = Some e →
          success r = false ∧
          ∃ x key val, x ∈ glager.logMatcher.expected lm ∧
                       lager.LogFormat.Data x !! key = Some val ∧
                       json_Marshal val = inl e)) ∧
  (asReader actual = Some input →
   match legacy.Match json_Decode range_order interface_ne fuel llm actual with
   | Some (Ok r) =>
       legacy.logMatcher.actual (matcher r) = entries ∧
       err r = None ∧
       success r = cursor_match (legacy_contained range_order interface_ne)
                     entries 0 (legacy.logMatcher.expected llm) ∧
       (success r = true ↔
        occurs_in_order (legacy_contained range_order interface_ne)
          entries 0 (legacy.logMatcher.expected llm))
   | Some (Panic _) => True
   | None => False
   end).
Proof.
  intros Hrange Hreader Hdec Hfuel. split; [|shelve]. eexists. split.
  { by apply (Match_decodes json_Marshal json_Decode range_order
                fuel lm actual input is_actual entries None rest). }
  simpl. split; [done|].
  pose proof (search_cursor_match json_Marshal range_order entries 0
                (glager.logMatcher.expected lm)) as Hcursor.
  rewrite drop_0 in Hcursor.
  pose proof (search_err json_Marshal range_order entries
                (glager.logMatcher.expected lm)) as Herr.
  assert (∀ e,
    (glager.search json_Marshal range_order entries
       (glager.logMatcher.expected lm)).2 = Some e →
    (glager.search json_Marshal range_order entries
       (glager.logMatcher.expected lm)).1 = false ∧
    ∃ x key val, x ∈ glager.logMatcher.expected lm ∧
                 lager.LogFormat.Data x !! key = Some val ∧
                 json_Marshal val = inl e) as Hwhy.
  { intros e. destruct (glager.search _ _ _ _) as [[|] [e'|]]; simpl; try done.
    intros [= ->]. split; [done|]. destruct Herr as (x & key & val & ? & Hin & ?).
    exists x, key, val. split; [done|]. split; [|done].
    rewrite (Hrange _) in Hin. by apply elem_of_map_to_list in Hin. }
  split; [done|]. split.
  { intros cursor e i. rewrite first_index_Some.
    repeat apply and_iff_compat_l. split.
    - intros [(a & Ha & Htrue) Hbefore]. split.
      + exists a. split; [done|]. by apply contained_true.
      + intros k a' Hk Ha' Hc. apply contained_true in Hc.
        by rewrite (Hbefore k a' Hk Ha') in Hc.
    - intros [(a & Ha & Htrue) Hbefore]. split.
      + exists a. split; [done|]. by apply contained_true.
      + intros k a' Hk Ha'.
        destruct (contained json_Marshal range_order a' e) eqn:Hc; [|done].
        apply contained_true in Hc. by destruct (Hbefore k a' Hk Ha'). }
  split; [by rewrite Hcursor, cursor_match_occurs|].
  split.
  { destruct (glager.search _ _ _ _) as [[|] [e'|]]; simpl; done. }
  split; [|done].
  intros Hall.
  destruct (glager.search _ _ _ _).2 as [e|] eqn:He; [|done].
  destruct (Hwhy e eq_refl) as (_ & x & key & val & Hx & Hkey & Hval).
  rewrite Forall_forall in Hall.
  destruct (Hall x Hx key val Hkey) as [js Hjs]. congruence.
  Unshelve.
  intros Hlreader.
  rewrite (legacy_Match_decodes json_Decode range_order interface_ne fuel llm
             actual input entries None rest Hlreader Hdec Hfuel).
  pose proof (legacy_search_cursor_match range_order interface_ne entries 0
                (legacy.logMatcher.expected llm)) as Hsearch.
  rewrite drop_0 in Hsearch.
  destruct (legacy.search _ _ _ _) as [[success err]|p]; [|done].
  destruct Hsearch as [-> ->]. simpl.
  split; [done|]. split; [done|]. split; [done|]. apply cursor_match_occurs.
Qed.

Lemma Match_finds_in_order_witness :
  ∃ r,
    glager.Match sample.json_Marshal sample.json_Decode sample.range_order 4
      (glager.ContainSequence
         [lager.LogFormat.mk "" "" "" lager.INFO {[ "event" := VString "starting" ]};
          lager.LogFormat.mk "" "logger" "" lager.ERROR ∅])
      (sample.bufio_Reader [Byte.x69; Byte.x64; Byte.x65]) = Some r ∧
    success r = true ∧ err r = None.
Proof.
  destruct (Match_finds_in_order sample.json_Marshal sample.json_Decode
              sample.range_order sample.interface_ne 4
              (glager.ContainSequence
                 [lager.LogFormat.mk "" "" "" lager.INFO
                    {[ "event" := VString "starting" ]};
                  lager.LogFormat.mk "" "logger" "" lager.ERROR ∅])
              (legacy.ContainSequence [])
              (sample.bufio_Reader [Byte.x69; Byte.x64; Byte.x65])
              [Byte.x69; Byte.x64; Byte.x65] true
              [sample.record lager.INFO; sample.record lager.DEBUG;
               sample.record lager.ERROR] [])
    as [(r & HMatch & _ & Hsuccess & _ & _ & Hnil & _) _].
  - exact sample_range_order.
  - reflexivity.
  - repeat (eapply decodes_entry; [reflexivity|]). apply decodes_EOF. reflexivity.
  - simpl. lia.
  - exists r. split; [exact HMatch|]. split.
    + rewrite Hsuccess. vm_compute. reflexivity.
    + apply Hnil. rewrite Hsuccess. vm_compute. reflexivity.
Defined.

(** An expected entry that no record contains, built with the public
    builders, for which [Match] returns an error instead of a plain false:
    its data value is a channel, which [json.Marshal] rejects. *)
Lemma Match_error_instead_of_false :
  glager.Info [glager.Data [VString "task"; VOther "chan int" "0xc00001a0c0"]]
  = Ok (lager.LogFormat.mk "" "" "" lager.INFO
          {[ "task" := VOther "chan int" "0xc00001a0c0" ]})
  ∧ first_index (contained sample.json_Marshal sample.range_order)
      [sample.record lager.INFO] 0
      (lager.LogFormat.mk "" "" "" lager.INFO
         {[ "task" := VOther "chan int" "0xc00001a0c0" ]})
    = None
  ∧ err <$> glager.Match sample.json_Marshal sample.json_Decode
              sample.range_order 2
              (glager.ContainSequence
                 [lager.LogFormat.mk "" "" "" lager.INFO
                    {[ "task" := VOther "chan int" "0xc00001a0c0" ]}])
              (sample.bufio_Reader [Byte.x69])
    = Some (Some (errors_New "json: unsupported type: chan int")).
Proof. split; [reflexivity|]. split; vm_compute; reflexivity. Qed.

(** The order cases of the test suite, on a reader holding an info, a debug
    and an error record: the sequence in order is found, a sequence out of
    order is not, and one record does not serve two expectations. *)
Example sequence_in_order :
  success <$> glager.Match sample.json_Marshal sample.json_Decode
                sample.range_order 4
                (glager.ContainSequence
                   [lager.LogFormat.mk "" "" "" lager.INFO ∅;
                    lager.LogFormat.mk "" "" "" lager.DEBUG ∅;
                    lager.LogFormat.mk "" "" "" lager.ERROR ∅])
                (sample.bufio_Reader [Byte.x69; Byte.x64; Byte.x65])
  = Some true.
Proof. vm_compute. reflexivity. Qed.

Example sequence_out_of_order :
  success <$> glager.Match sample.json_Marshal sample.json_Decode
                sample.range_order 4
                (glager.ContainSequence
                   [lager.LogFormat.mk "" "" "" lager.DEBUG ∅;
                    lager.LogFormat.mk "" "" "" lager.ERROR ∅;
                    lager.LogFormat.mk "" "" "" lager.INFO ∅])
                (sample.bufio_Reader [Byte.x69; Byte.x64; Byte.x65])
  = Some false.
Proof. vm_compute. reflexivity. Qed.

Example sequence_without_reuse :
  success <$> glager.Match sample.json_Marshal sample.json_Decode
                sample.range_order 4
                (glager.ContainSequence
                   [lager.LogFormat.mk "" "" "" lager.INFO ∅;
                    lager.LogFormat.mk "" "" "" lager.INFO ∅])
                (sample.bufio_Reader [Byte.x69; Byte.x64; Byte.x65])
  = Some false.
Proof. vm_compute. reflexivity. Qed.

(** A reader is consumed: once a first evaluation has read it to the end, a
    second one finds no record. *)
Example reader_read_once :
  (r ← glager.Match sample.json_Marshal sample.json_Decode
         sample.range_order 4
         (glager.ContainSequence [lager.LogFormat.mk "" "" "" lager.ERROR ∅])
         (sample.bufio_Reader [Byte.x69; Byte.x64; Byte.x65]);
   r' ← glager.Match sample.json_Marshal sample.json_Decode
          sample.range_order 4 (matcher r) (source r);
   Some (success r, success r'))
  = Some (true, false).
Proof. vm_compute. reflexivity. Qed.

(** ** Decode errors *)

(** C5. When decoding the source reaches a record the decoder rejects,
    [Match] returns false together with that decoder's error, whatever the
    expected entries are and whatever was decoded before: also for an empty
    expectation list and for expectations the records decoded so far would
    satisfy. Otherwise decoding goes on record by record to the clean end of
    input, and the outcome is that of the search over all the records. Every
    source is of one kind or the other, and [Match] returns once its fuel
    exceeds the number of bytes. *)
Theorem Match_decode_error
    (json_Marshal : value → error + string)
    (json_Decode : bytes → glager.Decode_result)
    (range_order : gmap string value → list (string * value))
    (lm : glager.logMatcher.t) (actual : actual_value)
    (input : bytes) (is_actual : bool) :
  glager.reader_of actual = Some (input, is_actual) →
  (∀ entries e rest fuel,
     decodes json_Decode input entries (Some e) rest →
     (List.length entries < fuel)%nat →
     ∃ r, glager.Match json_Marshal json_Decode range_order fuel lm actual
          = Some r ∧
          success r = false ∧ err r = Some e) ∧
  (∀ entries rest fuel,
     decodes json_Decode input entries None rest →
     (List.length entries < fuel)%nat →
     ∃ r, glager.Match json_Marshal json_Decode range_order fuel lm actual
          = Some r ∧
          glager.logMatcher.actual (matcher r) = entries ∧
          (success r, err r)
          = glager.search json_Marshal range_order entries
              (glager.logMatcher.expected lm)) ∧
  (consumes_input json_Decode →
   ∃ entries stop rest,
     decodes json_Decode input entries stop rest ∧
     ∀ fuel, (List.length input < fuel)%nat →
       ∃ r, glager.Match json_Marshal json_Decode range_order fuel lm actual
            = Some r).
Proof.
  intros Hreader. split; [|split].
  - intros entries e rest fuel Hdec Hfuel. eexists. split.
    + by apply (Match_decodes json_Marshal json_Decode range_order fuel lm
                  actual input is_actual entries (Some e) rest).
    + done.
  - intros entries rest fuel Hdec Hfuel. eexists. split.
    + by apply (Match_decodes json_Marshal json_Decode range_order fuel lm
                  actual input is_actual entries None rest).
    + simpl. split; [done|]. by destruct (glager.search _ _ _ _).
  - intros Hconsumes.
    destruct (decodes_total json_Decode input Hconsumes)
      as (entries & stop & rest & Hdec & Hlen).
    exists entries, stop, rest. split; [done|]. intros fuel Hfuel. eexists.
    apply (Match_decodes json_Marshal json_Decode range_order fuel lm
             actual input is_actual entries stop rest); [done|done|lia].
Qed.

Lemma Match_decode_error_witness :
  ∃ r,
    glager.Match sample.json_Marshal sample.json_Decode sample.range_order 2
      (glager.ContainSequence [lager.LogFormat.mk "" "" "" lager.INFO ∅])
      (sample.gbytes_Buffer [Byte.x69; Byte.x21; Byte.x64] []) = Some r ∧
    success r = false ∧ err r = Some (errors_New "invalid character").
Proof.
  apply (proj1 (Match_decode_error sample.json_Marshal sample.json_Decode
                  sample.range_order
                  (glager.ContainSequence
                     [lager.LogFormat.mk "" "" "" lager.INFO ∅])
                  (sample.gbytes_Buffer [Byte.x69; Byte.x21; Byte.x64] [])
                  [Byte.x69; Byte.x21; Byte.x64] false eq_refl)
           [sample.record lager.INFO] (errors_New "invalid character")
           [Byte.x21; Byte.x64] 2%nat).
  - eapply decodes_entry; [reflexivity|]. apply decodes_malformed. reflexivity.
  - simpl. lia.
Defined.

(** ** Evaluating a matcher twice *)

Lemma contains_loop_true_Forall json_Marshal pairs actual :
  glager.contains_loop json_Marshal pairs actual = (true, None) ↔
  Forall (λ kv, ∃ actualVal js,
            actual !! kv.1 = Some actualVal ∧
            json_Marshal kv.2 = inr js ∧
            match json_Marshal actualVal with inr j => j | inl _ => "" end = js)
         pairs.
Proof.
  induction pairs as [|[k v] pairs IH]; simpl.
  { split; [by constructor|done]. }
  rewrite Forall_cons. simpl. rewrite <- IH. clear IH.
  destruct (actual !! k) as [av|]; [|split; [done|by intros [(? & ? & ? & _) _]]].
  destruct (json_Marshal v) as [e|js] eqn:Hv.
  { split; [done|]. by intros [(? & ? & _ & ? & _) _]. }
  case_bool_decide as Hjs.
  - split; [done|]. intros [(av' & js' & Heq & Hjs' & Hsame) _].
    injection Heq as <-. injection Hjs' as <-. done.
  - split.
    + intros Hrest. split; [|done]. by exists av, js.
    + by intros [_ ?].
Qed.

(** Whether a record contains an entry does not depend on the order in
    which the expected data is visited. *)
Lemma contained_order_irrelevant json_Marshal range_order range_order' a e :
  visits_each_pair_once range_order →
  visits_each_pair_once range_order' →
  contained json_Marshal range_order a e
  = contained json_Marshal range_order' a e.
Proof.
  intros Hrange Hrange'.
  assert (∀ ro ro', visits_each_pair_once ro → visits_each_pair_once ro' →
            contained json_Marshal ro a e = true →
            contained json_Marshal ro' a e = true) as Hone.
  { intros ro ro' Hro Hro'. rewrite !contained_true.
    unfold glager.logEntry_contains, glager.logEntryData_contains, glager.logData.
    repeat (case_bool_decide; [done|]).
    destruct (glager.contains_loop json_Marshal (ro _) _) as [c [err|]] eqn:Hc;
      [done|]. intros [= ->].
    apply contains_loop_true_Forall in Hc.
    rewrite (Hro _), <- (Hro' _) in Hc.
    apply contains_loop_true_Forall in Hc. by rewrite Hc. }
  destruct (contained json_Marshal range_order a e) eqn:H1,
           (contained json_Marshal range_order' a e) eqn:H2; try done.
  - by rewrite (Hone range_order range_order') in H2.
  - by rewrite (Hone range_order' range_order) in H1.
Qed.

Lemma scan_forward_ext {A B : Type} (holds holds' : A → B → bool) actual e i n :
  (∀ a e, holds a e = holds' a e) →
  scan_forward holds actual e i n = scan_forward holds' actual e i n.
Proof.
  intros Hext. revert i. induction n as [|n IH]; intros i; simpl; [done|].
  destruct (actual !! i); [|done]. by rewrite Hext, IH.
Qed.

Lemma cursor_match_ext {A B : Type} (holds holds' : A → B → bool)
    actual cursor expected :
  (∀ a e, holds a e = holds' a e) →
  cursor_match holds actual cursor expected
  = cursor_match holds' actual cursor expected.
Proof.
  intros Hext. revert cursor.
  induction expected as [|e expected IH]; intros cursor; simpl; [done|].
  unfold first_index. rewrite (scan_forward_ext holds holds') by done.
  destruct (scan_forward _ _ _ _ _); [apply IH|done].
Qed.

Lemma decode_loop_more_fuel json_Decode fuel fuel' input acc x :
  glager.decode_loop json_Decode fuel input acc = Some x →
  (fuel ≤ fuel')%nat →
  glager.decode_loop json_Decode fuel' input acc = Some x.
Proof.
  revert fuel' input acc. induction fuel as [|fuel IH];
    intros [|fuel'] input acc; simpl; try done; try lia.
  destruct (json_Decode input); try done.
  intros H ?. apply IH; [done|lia].
Qed.

Lemma decode_loop_agree json_Decode fuel fuel' input acc x x' :
  glager.decode_loop json_Decode fuel input acc = Some x →
  glager.decode_loop json_Decode fuel' input acc = Some x' →
  x = x'.
Proof.
  intros H H'.
  apply (decode_loop_more_fuel _ _ (fuel `max` fuel')%nat) in H; [|lia].
  apply (decode_loop_more_fuel _ _ (fuel `max` fuel')%nat) in H'; [|lia].
  congruence.
Qed.

(** C6. A source read through [Buffer().Contents()] or [Contents()] is left
    as it was by [Match], and a second evaluation of the same expectation
    list against it decodes the same records from the start and yields the
    same boolean: with the same matcher or a fresh one, whatever the fuel
    that lets it return, and whatever order the map iterations take. *)
Theorem ContainSequence_twice_on_buffer
    (json_Marshal : value → error + string)
    (json_Decode : bytes → glager.Decode_result)
    (range_order range_order' : gmap string value → list (string * value))
    (fuel : nat) (lm lm' : glager.logMatcher.t) (actual : actual_value)
    (r : outcome glager.logMatcher.t) :
  visits_each_pair_once range_order →
  visits_each_pair_once range_order' →
  is_Some (asBufferProvider actual) ∨ is_Some (asContentsProvider actual) →
  glager.logMatcher.expected lm' = glager.logMatcher.expected lm →
  glager.Match json_Marshal json_Decode range_order fuel lm actual = Some r →
  source r = actual ∧
  glager.Match json_Marshal json_Decode range_order fuel lm' (source r) = Some r ∧
  (∀ fuel' r',
     glager.Match json_Marshal json_Decode range_order' fuel' lm' (source r)
     = Some r' →
     success r' = success r ∧
     glager.logMatcher.actual (matcher r') = glager.logMatcher.actual (matcher r)).
Proof.
  intros Hrange Hrange' Hbuffer Hexpected.
  assert (∃ input, glager.reader_of actual = Some (input, false)) as [input Hreader].
  { unfold glager.reader_of.
    destruct Hbuffer as [[c Hc]|[c Hc]]; rewrite Hc; [by eexists|].
    destruct (asBufferProvider actual); by eexists. }
  unfold glager.Match, glager.decode_and_search. rewrite Hreader.
  destruct (glager.decode_loop json_Decode fuel input [])
    as [[[entries stop] unread]|] eqn:Hloop; [|done].
  simpl. intros Hr.
  assert (source r = actual) as Hsource.
  { destruct stop; [by injection Hr as <-|].
    destruct (glager.search _ _ _ _). by injection Hr as <-. }
  rewrite Hsource, Hreader, Hloop, Hexpected. simpl.
  split; [done|]. split; [done|].
  intros fuel' r'.
  destruct (glager.decode_loop json_Decode fuel' input [])
    as [[[entries' stop'] unread']|] eqn:Hloop'; [|done].
  pose proof (decode_loop_agree _ _ _ _ _ _ _ Hloop Hloop') as [= <- <- <-].
  simpl. destruct stop as [e|].
  { injection Hr as <-. by intros [= <-]. }
  pose proof (search_cursor_match json_Marshal range_order entries 0
                (glager.logMatcher.expected lm)) as H1.
  pose proof (search_cursor_match json_Marshal range_order' entries 0
                (glager.logMatcher.expected lm)) as H2.
  rewrite drop_0 in H1, H2.
  rewrite (cursor_match_ext _ (contained json_Marshal range_order')) in H1
    by (intros; by apply contained_order_irrelevant).
  destruct (glager.search json_Marshal range_order entries _) as [b1 e1].
  destruct (glager.search json_Marshal range_order' entries _) as [b2 e2].
  injection Hr as <-. intros [= <-]. simpl in *. split; [congruence|done].
Qed.

Lemma ContainSequence_twice_on_buffer_witness :
  glager.Match sample.json_Marshal sample.json_Decode sample.range_order 3
    (glager.ContainSequence [lager.LogFormat.mk "" "" "" lager.INFO ∅])
    (sample.gbytes_Buffer [Byte.x69; Byte.x64] [Byte.x64])
  = Some (mk_outcome _ true None
            (glager.logMatcher.mk
               [sample.record lager.INFO; sample.record lager.DEBUG]
               [lager.LogFormat.mk "" "" "" lager.INFO ∅])
            (sample.gbytes_Buffer [Byte.x69; Byte.x64] [Byte.x64])).
Proof.
  pose (r := mk_outcome glager.logMatcher.t true None
               (glager.logMatcher.mk
                  [sample.record lager.INFO; sample.record lager.DEBUG]
                  [lager.LogFormat.mk "" "" "" lager.INFO ∅])
               (sample.gbytes_Buffer [Byte.x69; Byte.x64] [Byte.x64])).
  assert (glager.Match sample.json_Marshal sample.json_Decode
            sample.range_order 3
            (glager.ContainSequence [lager.LogFormat.mk "" "" "" lager.INFO ∅])
            (sample.gbytes_Buffer [Byte.x69; Byte.x64] [Byte.x64])
          = Some r) as Hfirst by (vm_compute; reflexivity).
  destruct (ContainSequence_twice_on_buffer
              sample.json_Marshal sample.json_Decode
              sample.range_order sample.range_order 3
              (glager.ContainSequence [lager.LogFormat.mk "" "" "" lager.INFO ∅])
              (glager.ContainSequence [lager.LogFormat.mk "" "" "" lager.INFO ∅])
              (sample.gbytes_Buffer [Byte.x69; Byte.x64] [Byte.x64])
              r sample_range_order sample_range_order
              (or_intror (ex_intro _ _ eq_refl)) eq_refl Hfirst)
    as (_ & Hsecond & _).
  exact Hsecond.
Defined.

(** ** The actual value *)

Lemma string_app_assoc (s1 s2 s3 : string) :
  (s1 +:+ s2) +:+ s3 = s1 +:+ (s2 +:+ s3).
Proof.
  induction s1 as [|c s1 IH]; [reflexivity|].
  change (String c ((s1 +:+ s2) +:+ s3) = String c (s1 +:+ s2 +:+ s3)).
  by rewrite IH.
Qed.

Lemma format_Object_names_type before actual :
  names_type (before +:+ format_Object actual 1) (goType actual).
Proof.
  exists (before +:+ "    "), (": " +:+ goRepr actual).
  unfold format_Object.
  change (String.concat "" (replicate 1 "    ")) with "    ".
  rewrite (string_app_assoc before "    "). do 3 f_equal.
Qed.

(** C4, as amended. In package glager, a value that is neither a buffer
    provider, nor a contents provider, nor a reader makes [Match] return
    false with an error whose message shows the value's type, for any
    matcher and without decoding anything; a failed match has a nil error, so
    the two never coincide. A value with at least one of the three
    interfaces is decoded: from the provided buffer's contents first, else
    from its contents, else by reading it. The earlier glager.go does the
    same for readers and for values that are none of the three, but it
    rejects, with its own error naming the type, every value that is not a
    reader, buffer and contents providers included. *)
Theorem Match_usage_error
    (json_Marshal : value → error + string)
    (json_Decode : bytes → glager.Decode_result)
    (range_order : gmap string value → list (string * value))
    (interface_ne : value → value → result bool)
    (fuel : nat) (lm : glager.logMatcher.t) (llm : legacy.logMatcher.t)
    (actual : actual_value) :
  (asBufferProvider actual = None ∧ asContentsProvider actual = None ∧
   asReader actual = None →
   glager.Match json_Marshal json_Decode range_order fuel lm actual
   = Some (mk_outcome _ false (Some (glager.unsupported_actual actual)) lm actual)
   ∧ names_type (err_Error (glager.unsupported_actual actual)) (goType actual)) ∧
  (is_Some (asBufferProvider actual) ∨ is_Some (asContentsProvider actual) ∨
   is_Some (asReader actual) →
   ∃ input,
     Some input = match asBufferProvider actual with
                  | Some contents => Some contents
                  | None => match asContentsProvider actual with
                            | Some contents => Some contents
                            | None => asReader actual
                            end
                  end ∧
     ∀ entries stop rest,
       decodes json_Decode input entries stop rest →
       (List.length entries < fuel)%nat →
       ∃ r, glager.Match json_Marshal json_Decode range_order fuel lm actual
            = Some r ∧
            glager.logMatcher.actual (matcher r) = entries ∧
            (∀ e, stop = Some e → success r = false ∧ err r = Some e) ∧
            (stop = None →
             (success r, err r)
             = glager.search json_Marshal range_order entries
                 (glager.logMatcher.expected lm))) ∧
  (asReader actual = None →
   legacy.Match json_Decode range_order interface_ne fuel llm actual
   = Some (Ok (mk_outcome _ false (Some (legacy.unsupported_actual actual))
                 llm actual))
   ∧ names_type (err_Error (legacy.unsupported_actual actual)) (goType actual)) ∧
  (∀ input entries stop rest,
     asReader actual = Some input →
     decodes json_Decode input entries stop rest →
     (List.length entries < fuel)%nat →
     match legacy.Match json_Decode range_order interface_ne fuel llm actual with
     | Some (Ok r) =>
         legacy.logMatcher.actual (matcher r) = entries ∧
         (∀ e, stop = Some e → success r = false ∧ err r = Some e)
     | Some (Panic _) => stop = None
     | None => False
     end).
Proof.
  split; [|split; [|split]].
  - intros (Hbuffer & Hcontents & Hreader).
    unfold glager.Match, glager.reader_of.
    rewrite Hbuffer, Hcontents, Hreader. split; [done|].
    unfold glager.unsupported_actual. cbn [err_Error].
    rewrite <- !string_app_assoc. apply format_Object_names_type.
  - intros Hsome.
    assert (∃ input is_actual,
              glager.reader_of actual = Some (input, is_actual) ∧
              Some input = match asBufferProvider actual with
                           | Some contents => Some contents
                           | None => match asContentsProvider actual with
                                     | Some contents => Some contents
                                     | None => asReader actual
                                     end
                           end) as (input & is_actual & Hreader & Hinput).
    { unfold glager.reader_of.
      destruct (asBufferProvider actual) as [c|]; [by exists c, false|].
      destruct (asContentsProvider actual) as [c|]; [by exists c, false|].
      destruct (asReader actual) as [c|]; [by exists c, true|].
      destruct Hsome as [[? ?]|[[? ?]|[? ?]]]; done. }
    exists input. split; [done|]. intros entries stop rest Hdec Hfuel.
    eexists. split.
    { by apply (Match_decodes json_Marshal json_Decode range_order fuel lm
                  actual input is_actual entries stop rest). }
    simpl. split; [done|]. split.
    + by intros e ->.
    + intros ->. by destruct (glager.search _ _ _ _).
  - intros Hreader. unfold legacy.Match. rewrite Hreader. split; [done|].
    unfold legacy.unsupported_actual. cbn [err_Error].
    rewrite <- !string_app_assoc. apply format_Object_names_type.
  - intros input entries stop rest Hreader Hdec Hfuel.
    rewrite (legacy_Match_decodes json_Decode range_order interface_ne fuel llm
               actual input entries stop rest Hreader Hdec Hfuel).
    destruct stop as [e|].
    + split; [done|]. by intros ? [= <-].
    + destruct (legacy.search _ _ _ _) as [[? ?]|]; [|done].
      split; [done|]. by intros.
Qed.

Lemma Match_usage_error_witness :
  glager.Match sample.json_Marshal sample.json_Decode sample.range_order 1
    (glager.ContainSequence []) (sample.an_int 42)
  = Some (mk_outcome _ false
            (Some (glager.unsupported_actual (sample.an_int 42)))
            (glager.ContainSequence []) (sample.an_int 42))
  ∧ names_type (err_Error (glager.unsupported_actual (sample.an_int 42))) "int".
Proof.
  apply (proj1 (Match_usage_error sample.json_Marshal sample.json_Decode
                  sample.range_order sample.interface_ne 1
                  (glager.ContainSequence []) (legacy.ContainSequence [])
                  (sample.an_int 42))).
  repeat split; reflexivity.
Defined.

(** A buffer provider that is not a reader: package glager decodes it, the
    earlier glager.go rejects it. *)
Lemma legacy_Match_rejects_buffer_provider :
  legacy.Match sample.json_Decode sample.range_order sample.interface_ne 2
    (legacy.ContainSequence [lager.LogFormat.mk "" "" "" lager.INFO ∅])
    (sample.TestSink [Byte.x69])
  = Some (Ok (mk_outcome _ false
                (Some (legacy.unsupported_actual (sample.TestSink [Byte.x69])))
                (legacy.ContainSequence [lager.LogFormat.mk "" "" "" lager.INFO ∅])
                (sample.TestSink [Byte.x69])))
  ∧ success <$> glager.Match sample.json_Marshal sample.json_Decode
                  sample.range_order 2
                  (glager.ContainSequence
                     [lager.LogFormat.mk "" "" "" lager.INFO ∅])
                  (sample.TestSink [Byte.x69])
    = Some true.
Proof. split; vm_compute; reflexivity. Qed.

(** ** The entry builders *)

Lemma with_Data_id e : with_Data e (lager.LogFormat.Data e) = e.
Proof. by destruct e. Qed.

Lemma set_Data_with_Data e data key val :
  glager.set_Data (with_Data e data) key val = with_Data e (<[key:=val]> data).
Proof. done. Qed.

Lemma length_arguments pairs :
  List.length (arguments pairs) = (2 * List.length pairs)%nat.
Proof. induction pairs as [|[k v] pairs IH]; simpl in *; lia. Qed.

Lemma arguments_snoc pairs key val :
  arguments (pairs ++ [(key, val)]) = arguments pairs ++ [VString key; val].
Proof. unfold arguments. by rewrite flat_map_app. Qed.

Lemma Data_loop_arguments pairs e data :
  glager.Data_loop (arguments pairs) (with_Data e data)
  = Ok (with_Data e (written pairs data)).
Proof.
  revert data. induction pairs as [|[k v] pairs IH]; intros data; [done|].
  cbn [arguments flat_map app fst snd glager.Data_loop].
  rewrite set_Data_with_Data. apply IH.
Qed.

Lemma Data_arguments pairs e :
  glager.Data (arguments pairs) e
  = Ok (with_Data e (written pairs (lager.LogFormat.Data e))).
Proof.
  unfold glager.Data. rewrite length_arguments, Nat.mul_comm, Nat.Div0.mod_mul.
  rewrite bool_decide_false by done.
  rewrite <- (with_Data_id e) at 1. apply Data_loop_arguments.
Qed.

Lemma Data_arguments_odd pairs key e :
  glager.Data (arguments pairs ++ [VString key]) e
  = Ok (with_Data e (<[key:=VString ""]> (written pairs (lager.LogFormat.Data e)))).
Proof.
  unfold glager.Data.
  rewrite length_app, length_arguments. simpl List.length.
  replace (2 * List.length pairs + 1)%nat
    with (1 + List.length pairs * 2)%nat by lia.
  rewrite Nat.Div0.mod_add. rewrite bool_decide_true by done.
  rewrite <- app_assoc. simpl app.
  rewrite <- (arguments_snoc pairs key (VString "")).
  rewrite <- (with_Data_id e) at 1. rewrite Data_loop_arguments.
  unfold written. by rewrite foldl_app.
Qed.

Lemma apply_options_app options options' e :
  glager.apply_options (options ++ options') e
  = match glager.apply_options options e with
    | Ok e' => glager.apply_options options' e'
    | Panic p => Panic p
    end.
Proof.
  revert e. induction options as [|option options IH]; intros e; simpl; [done|].
  destruct (option e); [apply IH|done].
Qed.


(** Every argument list with strings at its key positions spells out pairs,
    with or without one key left over. *)
Lemma string_keys_arguments (kv : list value) :
  (∀ i k, kv !! (2 * i)%nat = Some k → is_string k) →
  (∃ pairs, kv = arguments pairs) ∨
  (∃ pairs key, kv = arguments pairs ++ [VString key]).
Proof.
  induction kv as [|x|x y kv IH] using pairs_ind; intros Hkeys.
  - left. by exists [].
  - right. destruct (Hkeys 0%nat x eq_refl) as [key ->]. by exists [], key.
  - destruct (Hkeys 0%nat x eq_refl) as [key ->].
    destruct IH as [[pairs ->]|(pairs & key' & ->)].
    + intros i k Hk. apply (Hkeys (S i)).
      replace (2 * S i)%nat with (S (S (2 * i))) by lia. done.
    + left. by exists ((key, y) :: pairs).
    + right. by exists ((key, y) :: pairs), key'.
Qed.

Lemma written_untouched pairs data key :
  key ∉ pairs.*1 → written pairs data !! key = data !! key.
Proof.
  revert data. induction pairs as [|[k v] pairs IH]; intros data Hkey; [done|].
  simpl. rewrite IH by set_solver. apply lookup_insert_ne. set_solver.
Qed.

(** The last pair written for a key is the one that stays. *)
Lemma written_last pairs pairs' data key val :
  key ∉ pairs'.*1 →
  written (pairs ++ (key, val) :: pairs') data !! key = Some val.
Proof.
  intros Hkey. unfold written. rewrite foldl_app. simpl.
  fold (written pairs data).
  fold (written pairs' (<[key:=val]> (written pairs data))).
  rewrite written_untouched by done. apply lookup_insert_eq.
Qed.

Lemma is_string_dec (k : value) : {is_string k} + {¬ is_string k}.
Proof.
  destruct k; try (right; intros [? ?]; discriminate). left. by eexists.
Defined.

(** Among the key positions holding a non-string there is a first. *)
Lemma first_key_not_string (kv : list value) :
  (∃ i k, kv !! (2 * i)%nat = Some k ∧ ¬ is_string k) →
  ∃ i k, kv !! (2 * i)%nat = Some k ∧ ¬ is_string k ∧
         ∀ j k', (j < i)%nat → kv !! (2 * j)%nat = Some k' → is_string k'.
Proof.
  induction kv as [|x|x y kv IH] using pairs_ind; intros (i & k & Hk & Hnot).
  - done.
  - destruct i; [|done]. exists 0%nat, k. repeat split; [done..|]. intros; lia.
  - destruct (is_string_dec x) as [Hx|Hx].
    + destruct i as [|i]. { simpl in Hk. by injection Hk as <-. }
      replace (2 * S i)%nat with (S (S (2 * i))) in Hk by lia.
      destruct IH as (i' & k' & Hk' & Hnot' & Hleast); [by exists i, k|].
      exists (S i'), k'.
      replace (2 * S i')%nat with (S (S (2 * i'))) by lia.
      repeat split; [done..|]. intros [|j] k'' Hj Hk''.
      * simpl in Hk''. by injection Hk'' as <-.
      * replace (2 * S j)%nat with (S (S (2 * j))) in Hk'' by lia.
        apply (Hleast j); [lia|done].
    + exists 0%nat, x. repeat split; [done..|]. intros; lia.
Qed.

Lemma Data_loop_panics (kv : list value) i k e :
  kv !! (2 * i)%nat = Some k → ¬ is_string k →
  (∀ j k', (j < i)%nat → kv !! (2 * j)%nat = Some k' → is_string k') →
  glager.Data_loop kv e = Panic (glager.invalid_key k).
Proof.
  revert kv e. induction i as [|i IH]; intros kv e Hk Hnot Hbefore.
  - destruct kv as [|x kv]; [done|]. simpl in Hk. injection Hk as ->.
    simpl. destruct k; try done. destruct Hnot. by eexists.
  - replace (2 * S i)%nat with (S (S (2 * i))) in Hk by lia.
    destruct kv as [|x [|y kv]]; [done..|].
    destruct (Hbefore 0%nat x) as [key ->]; [lia|done|].
    simpl. apply IH; [done..|]. intros j k' Hj Hk'.
    apply (Hbefore (S j)); [lia|].
    replace (2 * S j)%nat with (S (S (2 * j))) by lia. done.
Qed.

Lemma Data_panics (kv : list value) i k e :
  kv !! (2 * i)%nat = Some k → ¬ is_string k →
  (∀ j k', (j < i)%nat → kv !! (2 * j)%nat = Some k' → is_string k') →
  glager.Data kv e = Panic (glager.invalid_key k).
Proof.
  intros Hk Hnot Hbefore. unfold glager.Data.
  case_bool_decide; [|by apply (Data_loop_panics kv i)].
  apply (Data_loop_panics _ i); [by apply lookup_app_l_Some|done|].
  intros j k' Hj Hk'. apply (Hbefore j); [done|].
  apply lookup_lt_Some in Hk.
  rewrite lookup_app_l in Hk' by lia. done.
Qed.

(** C10. When some argument of [Data] at a key position is not a string,
    applying the option panics, for every entry, with the error that names
    the type and the value of the first such argument; it neither returns
    nor skips that pair. The public builders [Entry], [Info], [Debug],
    [Error] and [Fatal] pass the panic on, whatever options that return
    normally come before and whatever options come after. *)
Theorem Data_key_not_string_panics (kv : list value) :
  (∃ i k, kv !! (2 * i)%nat = Some k ∧ ¬ is_string k) →
  ∃ i k,
    kv !! (2 * i)%nat = Some k ∧ ¬ is_string k ∧
    (∀ j k', (j < i)%nat → kv !! (2 * j)%nat = Some k' → is_string k') ∧
    err_Error (glager.invalid_key k)
    = "Invalid type for data key. Want string. Got "
        +:+ fmt_T k +:+ ":" +:+ fmt_v k +:+ "." ∧
    (∀ e, glager.Data kv e = Panic (glager.invalid_key k)) ∧
    (∀ level before after,
       Forall (λ option : glager.option_, ∀ e, ∃ e', option e = Ok e') before →
       glager.Entry level (before ++ glager.Data kv :: after)
       = Panic (glager.invalid_key k)) ∧
    glager.Info [glager.Data kv] = Panic (glager.invalid_key k) ∧
    glager.Debug [glager.Data kv] = Panic (glager.invalid_key k) ∧
    (∀ err, glager.Error err [glager.Data kv] = Panic (glager.invalid_key k)) ∧
    (∀ err, glager.Fatal err [glager.Data kv] = Panic (glager.invalid_key k)).
Proof.
  intros Hsome. destruct (first_key_not_string kv Hsome)
    as (i & k & Hk & Hnot & Hbefore).
  exists i, k. split; [done|]. split; [done|]. split; [done|]. split; [done|].
  assert (∀ e, glager.Data kv e = Panic (glager.invalid_key k)) as Hpanic.
  { intros e. by apply (Data_panics kv i). }
  split; [done|].
  assert (∀ before after e,
    Forall (λ option : glager.option_, ∀ e, ∃ e', option e = Ok e') before →
    glager.apply_options (before ++ glager.Data kv :: after) e
    = Panic (glager.invalid_key k)) as Hoptions.
  { intros before after e Hall. revert e.
    induction Hall as [|option before Hoption _ IH]; intros e; simpl.
    - by rewrite Hpanic.
    - destruct (Hoption e) as [e' ->]. apply IH. }
  split. { intros level before after Hall. by apply Hoptions. }
  unfold glager.Info, glager.Debug, glager.Error, glager.Fatal, glager.Entry.
  split; [apply (Hoptions [] []); constructor|].
  split; [apply (Hoptions [] []); constructor|].
  split; intros [err|]; simpl; by rewrite Hpanic.
Qed.

Lemma Data_key_not_string_panics_witness :
  glager.Info [glager.Data [VString "event"; VString "starting"; VInt 7; VNil]]
  = Panic (errors_New "Invalid type for data key. Want string. Got int:7.").
Proof.
  destruct (Data_key_not_string_panics
              [VString "event"; VString "starting"; VInt 7; VNil])
    as (i & k & Hk & Hnot & Hbefore & _ & _ & _ & HInfo & _).
  { exists 1%nat, (VInt 7). split; [reflexivity|]. intros [? ?]. discriminate. }
  rewrite HInfo. destruct i as [|[|i]].
  - injection Hk as <-. destruct Hnot. by eexists.
  - injection Hk as <-. reflexivity.
  - destruct (Hbefore 1%nat (VInt 7)) as [? ?]; [lia|reflexivity|discriminate].
Defined.

Lemma legacy_Data_loop_arguments pairs e data :
  legacy.Data_loop (legacy_arguments pairs) (with_Data e data)
  = Ok (with_Data e (written (prod_map id VString <$> pairs) data)).
Proof.
  revert data. induction pairs as [|[k v] pairs IH]; intros data; [done|].
  cbn [legacy_arguments flat_map app fst snd legacy.Data_loop].
  rewrite set_Data_with_Data. apply IH.
Qed.

Lemma length_legacy_arguments pairs :
  List.length (legacy_arguments pairs) = (2 * List.length pairs)%nat.
Proof. induction pairs as [|[k v] pairs IH]; simpl in *; lia. Qed.

Lemma legacy_Data_arguments pairs e :
  legacy.Data (legacy_arguments pairs) e
  = Ok (with_Data e (written (prod_map id VString <$> pairs)
                       (lager.LogFormat.Data e))).
Proof.
  unfold legacy.Data.
  rewrite length_legacy_arguments, Nat.mul_comm, Nat.Div0.mod_mul.
  rewrite bool_decide_false by done.
  rewrite <- (with_Data_id e) at 1. apply legacy_Data_loop_arguments.
Qed.

Lemma legacy_Data_arguments_odd pairs key e :
  legacy.Data (legacy_arguments pairs ++ [key]) e
  = Ok (with_Data e (<[key:=VString ""]>
                       (written (prod_map id VString <$> pairs)
                          (lager.LogFormat.Data e)))).
Proof.
  unfold legacy.Data.
  rewrite length_app, length_legacy_arguments. simpl List.length.
  replace (2 * List.length pairs + 1)%nat
    with (1 + List.length pairs * 2)%nat by lia.
  rewrite Nat.Div0.mod_add. rewrite bool_decide_true by done.
  rewrite <- app_assoc. simpl app.
  replace (legacy_arguments pairs ++ [key; ""])
    with (legacy_arguments (pairs ++ [(key, "")]))
    by (unfold legacy_arguments; by rewrite flat_map_app).
  rewrite <- (with_Data_id e) at 1. rewrite legacy_Data_loop_arguments.
  rewrite fmap_app. unfold written. by rewrite foldl_app.
Qed.

Lemma legacy_strings_arguments (kv : list string) :
  (∃ pairs, kv = legacy_arguments pairs) ∨
  (∃ pairs key, kv = legacy_arguments pairs ++ [key]).
Proof.
  induction kv as [|x|x y kv IH] using pairs_ind.
  - left. by exists [].
  - right. by exists [], x.
  - destruct IH as [[pairs ->]|(pairs & key' & ->)].
    + left. by exists ((x, y) :: pairs).
    + right. by exists ((x, y) :: pairs), key'.
Qed.

(** C8, as amended. An argument list of [Data] whose key positions hold
    strings spells out key/value pairs, with or without one key left over.
    Without a key left over, the option writes the pairs into the data map in
    order; with one, it writes the pairs and then maps the last key to the
    empty string. A pair written later for the same key, in the same or in a
    later application, replaces the earlier value. In the earlier glager.go
    all arguments are strings, so this covers every call. *)
Theorem Data_writes_pairs (e : lager.LogFormat.t) :
  (∀ kv : list value,
     (∀ i k, kv !! (2 * i)%nat = Some k → is_string k) →
     (∃ pairs, kv = arguments pairs) ∨
     (∃ pairs key, kv = arguments pairs ++ [VString key])) ∧
  (∀ pairs,
     glager.Data (arguments pairs) e
     = Ok (with_Data e (written pairs (lager.LogFormat.Data e)))) ∧
  (∀ pairs key,
     ∃ e', glager.Data (arguments pairs ++ [VString key]) e = Ok e' ∧
           e' = with_Data e (<[key:=VString ""]>
                               (written pairs (lager.LogFormat.Data e))) ∧
           lager.LogFormat.Data e' !! key = Some (VString "")) ∧
  (∀ pairs pairs' key val,
     key ∉ pairs'.*1 →
     written (pairs ++ (key, val) :: pairs') (lager.LogFormat.Data e) !! key
     = Some val) ∧
  (∀ key val val',
     ∃ e', glager.apply_options
             [glager.Data [VString key; val]; glager.Data [VString key; val']] e
           = Ok e' ∧
           lager.LogFormat.Data e' !! key = Some val') ∧
  (∀ kv : list string,
     (∃ pairs, kv = legacy_arguments pairs) ∨
     (∃ pairs key, kv = legacy_arguments pairs ++ [key])) ∧
  (∀ pairs,
     legacy.Data (legacy_arguments pairs) e
     = Ok (with_Data e (written (prod_map id VString <$> pairs)
                          (lager.LogFormat.Data e)))) ∧
  (∀ pairs key,
     ∃ e', legacy.Data (legacy_arguments pairs ++ [key]) e = Ok e' ∧
           e' = with_Data e (<[key:=VString ""]>
                               (written (prod_map id VString <$> pairs)
                                  (lager.LogFormat.Data e))) ∧
           lager.LogFormat.Data e' !! key = Some (VString "")).
Proof.
  split; [apply string_keys_arguments|].
  split; [intros; apply Data_arguments|].
  split.
  { intros pairs key. eexists. split; [apply Data_arguments_odd|].
    split; [done|]. apply lookup_insert_eq. }
  split; [intros; by apply written_last|].
  split.
  { intros key val val'. eexists. split; [reflexivity|]. apply lookup_insert_eq. }
  split; [apply legacy_strings_arguments|].
  split; [intros; apply legacy_Data_arguments|].
  intros pairs key. eexists. split; [apply legacy_Data_arguments_odd|].
  split; [done|]. apply lookup_insert_eq.
Qed.

Lemma Data_writes_pairs_witness :
  ∃ e', glager.Data [VString "event"; VString "starting"; VString "task"]
          (lager.LogFormat.mk "" "" "" lager.INFO ∅) = Ok e' ∧
        lager.LogFormat.Data e' !! "task" = Some (VString "").
Proof.
  destruct (Data_writes_pairs (lager.LogFormat.mk "" "" "" lager.INFO ∅))
    as (_ & _ & Hodd & _).
  destruct (Hodd [("event", VString "starting")] "task") as (e' & He' & _ & Hlast).
  exists e'. split; [exact He'|exact Hlast].
Defined.

(** An odd number of arguments whose key is not a string: the option panics
    and maps no key to the empty string. *)
Lemma Data_odd_arguments_panic :
  glager.Data [VInt 42] (lager.LogFormat.mk "" "" "" lager.INFO ∅)
  = Panic (errors_New "Invalid type for data key. Want string. Got int:42.")
  ∧ glager.Info [glager.Data [VInt 42]]
    = Panic (errors_New "Invalid type for data key. Want string. Got int:42.").
Proof. split; reflexivity. Qed.


Lemma Entry_then_error level options err :
  glager.Entry level
    (options ++ [glager.Data [VString "error"; VString (err_Error err)]])
  = match glager.Entry level options with
    | Ok e => Ok (glager.set_Data e "error" (VString (err_Error err)))
    | Panic p => Panic p
    end.
Proof.
  unfold glager.Entry. rewrite apply_options_app.
  by destruct (glager.apply_options options _).
Qed.


(** With a nil error the earlier glager.go calls a method on it. *)
Lemma legacy_Error_nil_panics options :
  legacy.Error None options = Panic nil_dereference.
Proof. done. Qed.




(** ** Sessions *)

Section SessionFacts.
Import lager.
Context {Sink : Type}.
Implicit Types l : logger Sink.

Lemma Session_sessionID l task' data' :
  sessionID (Session l task' data').1
  = session_prefix l +:+ pretty ((nextSession l + 1) mod 2^32).
Proof.
  unfold Session, session_prefix, atomic_AddUint32. simpl.
  case_bool_decide; [|done]. by rewrite string_app_assoc.
Qed.

Lemma Session_parent l task' data' :
  sessionID (Session l task' data').2 = sessionID l ∧
  nextSession (Session l task' data').2 = (nextSession l + 1) mod 2^32.
Proof. done. Qed.

Lemma Sessions_cons l task' data' calls :
  Sessions l ((task', data') :: calls)
  = ((Session l task' data').1 :: (Sessions (Session l task' data').2 calls).1,
     (Sessions (Session l task' data').2 calls).2).
Proof.
  cbn [Sessions]. destruct (Session l task' data') as [child l1].
  cbn [fst snd]. by destruct (Sessions l1 calls).
Qed.

Lemma Sessions_length l calls :
  List.length (Sessions l calls).1 = List.length calls.
Proof.
  revert l. induction calls as [|[task' data'] calls IH]; intros l; [done|].
  rewrite Sessions_cons. cbn [fst List.length]. by rewrite IH.
Qed.

Lemma Sessions_parent l calls :
  (0 ≤ nextSession l < 2^32) →
  sessionID (Sessions l calls).2 = sessionID l ∧
  nextSession (Sessions l calls).2
  = (nextSession l + Z.of_nat (List.length calls)) mod 2^32.
Proof.
  revert l. induction calls as [|[task' data'] calls IH]; intros l Hl.
  { cbn [Sessions snd List.length]. split; [done|].
    rewrite Z.add_0_r, Z.mod_small; done. }
  rewrite Sessions_cons. cbn [snd].
  destruct (Session_parent l task' data') as [Hid Hnext].
  destruct (IH (Session l task' data').2) as [-> ->].
  { rewrite Hnext. by apply Z.mod_pos_bound. }
  split; [done|]. rewrite Hnext, Zplus_mod_idemp_l.
  f_equal. cbn [List.length]. lia.
Qed.

(** The identifier of the child of the derivation number [i], counted from
    0: the parent's counter wraps at 32 bits. *)
Lemma Sessions_lookup l calls i :
  (i < List.length calls)%nat →
  sessionID <$> (Sessions l calls).1 !! i
  = Some (session_prefix l
            +:+ pretty ((nextSession l + Z.of_nat i + 1) mod 2^32)).
Proof.
  revert l i. induction calls as [|[task' data'] calls IH]; intros l i Hi.
  { simpl in Hi. lia. }
  rewrite Sessions_cons. cbn [fst].
  destruct (Session_parent l task' data') as [Hid Hnext].
  destruct i as [|i].
  - cbn [lookup list_lookup fmap option_fmap option_map].
    rewrite Session_sessionID.
    by replace (nextSession l + Z.of_nat 0 + 1) with (nextSession l + 1) by lia.
  - cbn [lookup list_lookup]. cbn [List.length] in Hi.
    rewrite (IH _ i) by lia.
    unfold session_prefix. rewrite Hid, Hnext.
    rewrite <- Z.add_assoc, Zplus_mod_idemp_l.
    by replace (nextSession l + 1 + (Z.of_nat i + 1))
         with (nextSession l + Z.of_nat (S i) + 1) by lia.
Qed.
End SessionFacts.

(** C9, as amended. In a run of derivations from one parent whose counter
    does not pass 2^32 - 1 in the run, the child of derivation number [i]
    (from 0) gets the segment [nextSession + i + 1], a positive integer; its
    identifier is the parent's identifier, a dot and that segment when the
    parent's identifier is non-empty, and the segment alone otherwise; the
    identifiers of any two children differ; the parent's counter ends
    advanced by the number of derivations and its own identifier unchanged.
    No operation on a logger changes its identifier afterwards. *)
Theorem Session_identifiers {Sink : Type} (l : lager.logger Sink)
    (calls : list (string * list (gmap string value))) :
  (0 ≤ lager.nextSession l)%Z →
  (lager.nextSession l + Z.of_nat (List.length calls) < 2^32)%Z →
  List.length (lager.Sessions l calls).1 = List.length calls ∧
  (∀ i child,
     (lager.Sessions l calls).1 !! i = Some child →
     (0 < lager.nextSession l + Z.of_nat i + 1)%Z ∧
     lager.sessionID child
     = if bool_decide (lager.sessionID l ≠ "")
       then lager.sessionID l +:+ "."
              +:+ pretty (lager.nextSession l + Z.of_nat i + 1)
       else pretty (lager.nextSession l + Z.of_nat i + 1)) ∧
  (∀ i j child_i child_j,
     i ≠ j →
     (lager.Sessions l calls).1 !! i = Some child_i →
     (lager.Sessions l calls).1 !! j = Some child_j →
     lager.sessionID child_i ≠ lager.sessionID child_j) ∧
  lager.nextSession (lager.Sessions l calls).2
  = lager.nextSession l + Z.of_nat (List.length calls) ∧
  lager.sessionID (lager.Sessions l calls).2 = lager.sessionID l ∧
  (∀ (child : lager.logger Sink) task' data' sink data'',
     lager.sessionID (lager.Session child task' data').2 = lager.sessionID child ∧
     lager.sessionID (lager.RegisterSink child sink) = lager.sessionID child ∧
     lager.sessionID (lager.WithData child data'') = lager.sessionID child).
Proof.
  intros Hlow Hhigh.
  assert (∀ i child,
    (lager.Sessions l calls).1 !! i = Some child →
    (i < List.length calls)%nat ∧
    lager.sessionID child
    = session_prefix l +:+ pretty (lager.nextSession l + Z.of_nat i + 1))
    as Hchild.
  { intros i child Hi.
    assert (i < List.length calls)%nat as Hlt.
    { rewrite <- (Sessions_length l). by apply lookup_lt_Some in Hi. }
    split; [done|].
    pose proof (Sessions_lookup l calls i Hlt) as Hid.
    rewrite Hi in Hid. injection Hid as ->.
    rewrite Z.mod_small by lia. done. }
  split; [apply Sessions_length|]. split; [|split; [|split; [|split]]].
  - intros i child Hi. destruct (Hchild i child Hi) as [Hlt ->].
    split; [lia|]. unfold session_prefix.
    case_bool_decide; [|done]. by rewrite string_app_assoc.
  - intros i j ci cj Hij Hi Hj.
    destruct (Hchild i ci Hi) as [_ ->]. destruct (Hchild j cj Hj) as [_ ->].
    intros Heq. apply (inj (String.app _)) in Heq.
    apply (inj pretty) in Heq. lia.
  - destruct (Sessions_parent l calls) as [_ ->]; [lia|].
    apply Z.mod_small. lia.
  - destruct (Sessions_parent l calls) as [-> _]; [lia|done].
  - done.
Qed.

Lemma Session_identifiers_witness :
  lager.sessionID
    <$> (lager.Sessions
           (lager.Session (lager.NewLogger (Sink:=unit) "svc") "parent" []).1
           [("a", []); ("b", [])]).1
  = ["1.1"; "1.2"].
Proof.
  pose (parent := (lager.Session (lager.NewLogger (Sink:=unit) "svc")
                     "parent" []).1).
  destruct (Session_identifiers parent [("a", []); ("b", [])])
    as (Hlen & Hchild & _); [done|done|].
  change (lager.sessionID <$> (lager.Sessions parent [("a", []); ("b", [])]).1
          = ["1.1"; "1.2"]).
  destruct (lager.Sessions parent [("a", []); ("b", [])]).1
    as [|child_a [|child_b [|? ?]]]; try done.
  cbn [fmap list_fmap].
  rewrite (proj2 (Hchild 0%nat child_a eq_refl)).
  rewrite (proj2 (Hchild 1%nat child_b eq_refl)).
  reflexivity.
Defined.

(** Derivations number 2^32 and 2^32 + 1 from a new logger: the counter has
    wrapped, the first gets the segment 0 and the second the segment 1 that
    the very first derivation got. *)
Lemma Session_counter_wraps :
  lager.sessionID
    <$> (lager.Sessions (lager.NewLogger (Sink:=unit) "svc")
           (replicate (Z.to_nat 4294967297) ("s", []))).1
        !! Z.to_nat 4294967295
  = Some "0"
  ∧ lager.sessionID
      <$> (lager.Sessions (lager.NewLogger (Sink:=unit) "svc")
             (replicate (Z.to_nat 4294967297) ("s", []))).1
          !! Z.to_nat 4294967296
    = Some "1"
  ∧ lager.sessionID
      <$> (lager.Sessions (lager.NewLogger (Sink:=unit) "svc")
             (replicate (Z.to_nat 4294967297) ("s", []))).1
          !! 0%nat
    = Some "1".
Proof.
  split; [|split].
  - rewrite Sessions_lookup by (rewrite length_replicate; lia).
    rewrite Z2Nat.id by lia. reflexivity.
  - rewrite Sessions_lookup by (rewrite length_replicate; lia).
    rewrite Z2Nat.id by lia. reflexivity.
  - rewrite Sessions_lookup by (rewrite length_replicate; lia).
    reflexivity.
Qed.

(** ** The logger's data and the records it hands to its sinks *)

Lemma copy_into_union (src dst : gmap string value) :
  lager.copy_into src dst = src ∪ dst.
Proof.
  unfold lager.copy_into.
  apply (map_fold_weak_ind (λ r m, r = m ∪ dst)).
  - by rewrite (left_id_L ∅ (∪)).
  - intros i x m r _ ->. by rewrite insert_union_l.
Qed.

Lemma foldl_copy_into (givenData : list (gmap string value)) base :
  foldl (λ acc dataArg, lager.copy_into dataArg acc) base givenData
  = foldl (λ acc dataArg, dataArg ∪ acc) base givenData.
Proof.
  revert base. induction givenData as [|d gd IH]; intros base; simpl; [done|].
  by rewrite IH, copy_into_union.
Qed.

Lemma foldl_union_overlay (givenData : list (gmap string value)) base :
  foldl (λ acc dataArg, dataArg ∪ acc) base givenData
  = overlay givenData ∪ base.
Proof.
  unfold overlay. revert base.
  induction givenData as [|d gd IH]; intros base; simpl.
  - by rewrite (left_id_L ∅ (∪)).
  - rewrite IH, (IH (d ∪ ∅)), (right_id_L ∅ (∪)). by rewrite (assoc_L (∪)).
Qed.

Lemma overlay_cons d givenData : overlay (d :: givenData) = overlay givenData ∪ d.
Proof.
  unfold overlay at 1. simpl.
  by rewrite foldl_union_overlay, (right_id_L ∅ (∪)).
Qed.

Lemma overlay_app givenData givenData' :
  overlay (givenData ++ givenData') = overlay givenData' ∪ overlay givenData.
Proof.
  unfold overlay at 1. rewrite foldl_app. fold (overlay givenData).
  apply foldl_union_overlay.
Qed.

Lemma overlay_lookup_None givenData key :
  Forall (λ d : gmap string value, d !! key = None) givenData →
  overlay givenData !! key = None.
Proof.
  induction 1 as [|d gd Hd _ IH]; [done|].
  by rewrite overlay_cons, lookup_union, IH, Hd.
Qed.

Lemma overlay_lookup_last before d after key val :
  d !! key = Some val →
  Forall (λ d' : gmap string value, d' !! key = None) after →
  overlay (before ++ d :: after) !! key = Some val.
Proof.
  intros Hd Hafter.
  rewrite overlay_app, overlay_cons, !lookup_union.
  rewrite (overlay_lookup_None after key Hafter), Hd.
  by destruct (overlay before !! key).
Qed.

Lemma string_app_nil_r (s : string) : s +:+ "" = s.
Proof.
  induction s as [|c s IH]; [done|].
  change (String c (s +:+ "") = String c s). by rewrite IH.
Qed.

Section LoggerFacts.
Import lager.
Context {Sink : Type}.
Implicit Types l : logger Sink.

Lemma baseData_overlay l givenData :
  baseData l givenData
  = if bool_decide (sessionID l ≠ "")
    then <["session" := VString (sessionID l)]> (overlay givenData ∪ data l)
    else overlay givenData ∪ data l.
Proof.
  unfold baseData. rewrite copy_into_union, (right_id_L ∅ (∪)).
  replace (if bool_decide (0 < List.length givenData)%nat
           then foldl (λ acc dataArg, copy_into dataArg acc) (data l) givenData
           else data l)
    with (overlay givenData ∪ data l); [done|].
  case_bool_decide as Hlen.
  - by rewrite foldl_copy_into, foldl_union_overlay.
  - destruct givenData; simpl in Hlen; [|lia].
    change (overlay []) with (∅ : gmap string value).
    by rewrite (left_id_L ∅ (∪)).
Qed.

Lemma baseData_session l givenData :
  sessionID l ≠ "" →
  baseData l givenData !! "session" = Some (VString (sessionID l)).
Proof.
  intros Hsid. rewrite baseData_overlay, bool_decide_eq_true_2 by done.
  apply lookup_insert_eq.
Qed.

Lemma baseData_other l givenData key :
  key ≠ "session" ∨ sessionID l = "" →
  baseData l givenData !! key = (overlay givenData ∪ data l) !! key.
Proof.
  intros Hkey. rewrite baseData_overlay. case_bool_decide as Hsid; [|done].
  destruct Hkey as [Hkey|Hkey]; [|done].
  by rewrite lookup_insert_ne.
Qed.

Lemma baseData_WithData l data' givenData :
  baseData (WithData l data') givenData = baseData l (data' :: givenData).
Proof.
  rewrite (baseData_overlay (WithData l data')), (baseData_overlay l (_ :: _)).
  simpl. rewrite (baseData_overlay l [data']), !overlay_cons.
  change (overlay []) with (∅ : gmap string value).
  rewrite (left_id_L ∅ (∪)).
  case_bool_decide as Hsid.
  - apply map_eq. intros key. destruct (decide (key = "session")) as [->|Hkey].
    + by rewrite !lookup_insert_eq.
    + rewrite !lookup_insert_ne, !lookup_union, lookup_insert_ne, lookup_union
        by done.
      by destruct (overlay givenData !! key), (data' !! key), (data l !! key).
  - by rewrite (assoc_L (∪)).
Qed.

Lemma Session_sessionID_nonempty l task' data' :
  sessionID (Session l task' data').1 ≠ "".
Proof.
  simpl. case_bool_decide as Hsid.
  - destruct (sessionID l); [done|]. discriminate.
  - apply pretty_Z_nonempty.
Qed.

Lemma baseData_Session l task' data' givenData :
  baseData (Session l task' data').1 givenData
  = <["session" := VString (sessionID (Session l task' data').1)]>
      (baseData l (data' ++ givenData)).
Proof.
  rewrite (baseData_overlay (Session l task' data').1).
  rewrite bool_decide_eq_true_2 by apply Session_sessionID_nonempty.
  change (data (Session l task' data').1) with (baseData l data').
  rewrite !baseData_overlay, overlay_app.
  apply map_eq. intros key. destruct (decide (key = "session")) as [->|Hkey].
  - by rewrite !lookup_insert_eq.
  - rewrite !lookup_insert_ne, lookup_union by done.
    case_bool_decide.
    + rewrite !lookup_insert_ne, !lookup_union by done.
      by destruct (overlay givenData !! key), (overlay data' !! key),
           (data l !! key).
    + rewrite !lookup_union.
      by destruct (overlay givenData !! key), (overlay data' !! key),
           (data l !! key).
Qed.

Lemma log_to_sinks_sinks l log : (log_to_sinks l log).*1 = sinks l.
Proof.
  unfold log_to_sinks.
  induction (sinks l) as [|s ss IH]; [done|].
  rewrite !fmap_cons. simpl. by rewrite IH.
Qed.

Lemma Forall_logged l log (P : LogFormat.t → Prop) :
  P (Logged_format log) → Forall P (logged (log_to_sinks l log)).
Proof.
  intros HP. unfold logged, log_to_sinks.
  induction (sinks l) as [|s ss IH]; [constructor|].
  rewrite !fmap_cons. by constructor.
Qed.

Lemma derived_component_task l l' :
  derived l l' →
  component l' = component l ∧ ∃ suffix, task l' = task l +:+ suffix.
Proof.
  induction 1 as [|l' task' data' _ [IHc [suffix IHt]]
                   |l' task' data' _ IH|l' data' _ IH|l' sink _ IH];
    simpl; try done.
  - split; [done|]. exists "". by rewrite string_app_nil_r.
  - split; [done|]. exists (suffix +:+ "." +:+ task').
    by rewrite IHt, string_app_assoc.
Qed.
End LoggerFacts.

Lemma substring_prefix (n : nat) (s : string) :
  ∃ rest, s = substring 0 n s +:+ rest ∧
          (String.length (substring 0 n s) ≤ n)%nat ∧
          ((String.length s ≤ n)%nat → substring 0 n s = s).
Proof.
  revert s. induction n as [|n IH]; intros s.
  - exists s. destruct s; simpl; repeat split; try done; lia.
  - destruct s as [|c s]; simpl.
    + exists "". repeat split; try done; lia.
    + destruct (IH s) as (rest & Hs & Hlen & Hall). exists rest.
      repeat split.
      * change (String c s = String c (substring 0 n s +:+ rest)).
        by rewrite <- Hs.
      * lia.
      * intros Hle. rewrite Hall; [done|lia].
Qed.

(** X1. [baseData] merges, in this order, the logger's own data, the given
    maps from first to last, and the session identifier: a non-empty
    session identifier is what the key [session] holds, whatever the logger's
    data and the given maps say; any other key holds the value of the last
    given map that has it, and the value of the logger's own data when no
    given map has it. *)
Theorem baseData_merge {Sink : Type} (l : lager.logger Sink)
    (givenData : list (gmap string value)) (key : string) :
  (lager.sessionID l ≠ "" →
   lager.baseData l givenData !! "session"
   = Some (VString (lager.sessionID l))) ∧
  (key ≠ "session" ∨ lager.sessionID l = "" →
   (∀ before d after val,
      givenData = before ++ d :: after →
      d !! key = Some val →
      Forall (λ d' : gmap string value, d' !! key = None) after →
      lager.baseData l givenData !! key = Some val) ∧
   (Forall (λ d : gmap string value, d !! key = None) givenData →
    lager.baseData l givenData !! key = lager.data l !! key)).
Proof.
  split; [apply baseData_session|].
  intros Hkey. split.
  - intros before d after val -> Hd Hafter.
    rewrite baseData_other, lookup_union by done.
    rewrite (overlay_lookup_last before d after key val) by done.
    by destruct (lager.data l !! key).
  - intros Hnone.
    rewrite baseData_other, lookup_union by done.
    by rewrite overlay_lookup_None, (left_id_L None (∪)).
Qed.

Lemma baseData_merge_witness :
  lager.baseData
    (lager.mk_logger (Sink:=unit) "svc" "svc.job" [] "3" 0
       {[ "task" := VString "a" ]})
    [ {[ "task" := VString "b"; "id" := VInt 1 ]}; {[ "id" := VInt 2 ]} ]
  !! "task" = Some (VString "b").
Proof.
  refine (proj1 (proj2 (baseData_merge _ _ "task") _)
            [] {[ "task" := VString "b"; "id" := VInt 1 ]}
            [ {[ "id" := VInt 2 ]} ] (VString "b") _ _ _).
  - left. vm_compute. discriminate.
  - reflexivity.
  - vm_compute. reflexivity.
  - repeat constructor.
Defined.

(** X2. A logger made by [WithData] logs what its receiver logs when the
    map is put in front of the data of each call: for [baseData] and for
    each of [Debug], [Info], [Error] and [Fatal]. *)
Theorem WithData_prepends_data {Sink : Type} (formatTimestamp : Z → string)
    (l : lager.logger Sink) (data' : gmap string value)
    (stack : string) (t : Z) (action : string) (err : option error)
    (givenData : list (gmap string value)) :
  lager.baseData (lager.WithData l data') givenData
  = lager.baseData l (data' :: givenData) ∧
  lager.Debug formatTimestamp (lager.WithData l data') t action givenData
  = lager.Debug formatTimestamp l t action (data' :: givenData) ∧
  lager.Info formatTimestamp (lager.WithData l data') t action givenData
  = lager.Info formatTimestamp l t action (data' :: givenData) ∧
  lager.Error formatTimestamp (lager.WithData l data') t action err givenData
  = lager.Error formatTimestamp l t action err (data' :: givenData) ∧
  lager.Fatal formatTimestamp (lager.WithData l data') stack t action err
    givenData
  = lager.Fatal formatTimestamp l stack t action err (data' :: givenData).
Proof.
  pose proof (baseData_WithData l data' givenData) as Hbase.
  split; [done|].
  unfold lager.Debug, lager.Info, lager.Error, lager.Fatal, lager.log_to_sinks.
  rewrite Hbase. done.
Qed.

(** X3. The logger that [Session] returns has a non-empty session
    identifier. What it logs carries the receiver's component as source, the
    receiver's task, the session's task and the action joined by dots as
    message, and under [session] the new logger's own identifier, not the
    receiver's; every other key is merged as by the receiver from the data
    given to [Session] followed by the data of the call. The sinks are the
    receiver's. *)
Theorem Session_records {Sink : Type} (formatTimestamp : Z → string)
    (l : lager.logger Sink) (task' : string)
    (data' : list (gmap string value))
    (t : Z) (action : string) (givenData : list (gmap string value)) :
  let child := (lager.Session l task' data').1 in
  lager.sessionID child ≠ "" ∧
  lager.baseData child givenData
  = <["session" := VString (lager.sessionID child)]>
      (lager.baseData l (data' ++ givenData)) ∧
  (lager.Info formatTimestamp child t action givenData).*1 = lager.sinks l ∧
  Forall (λ r,
            lager.LogFormat.Timestamp r = formatTimestamp t ∧
            lager.LogFormat.Source r = lager.component l ∧
            lager.LogFormat.Message r
            = lager.task l +:+ "." +:+ task' +:+ "." +:+ action ∧
            lager.LogFormat.LogLevel r = lager.INFO ∧
            lager.LogFormat.Data r !! "session"
            = Some (VString (lager.sessionID child)) ∧
            ∀ key, key ≠ "session" →
                   lager.LogFormat.Data r !! key
                   = lager.baseData l (data' ++ givenData) !! key)
         (logged (lager.Info formatTimestamp child t action givenData)).
Proof.
  intros child. split; [apply Session_sessionID_nonempty|].
  split; [apply baseData_Session|].
  split; [exact (log_to_sinks_sinks child _)|].
  unfold lager.Info. apply Forall_logged.
  repeat split.
  - exact (string_app_assoc (lager.task l) ("." +:+ task') ("." +:+ action)).
  - cbn [lager.Logged_format lager.LogFormat.Data].
    unfold child. rewrite baseData_Session. apply lookup_insert_eq.
  - intros key Hkey. cbn [lager.Logged_format lager.LogFormat.Data].
    unfold child. rewrite baseData_Session. by apply lookup_insert_ne.
Qed.

(** X4. [Error] and [Fatal] hand one record to each sink of the logger, in
    the order of the sinks. A non-nil error is written under [error] over
    whatever the data held there; with a nil error the data is left as
    merged. [Fatal] writes under [trace] the first [StackTraceBufferSize]
    bytes at most of the goroutine's stack, all of it when it is not longer,
    and panics with the error it was given after the sinks have been called.
    A non-empty session identifier stays under [session]. *)
Theorem Error_Fatal_records {Sink : Type} (formatTimestamp : Z → string)
    (l : lager.logger Sink) (stack : string) (t : Z) (action : string)
    (err : option error) (givenData : list (gmap string value)) :
  (lager.Error formatTimestamp l t action err givenData).*1 = lager.sinks l ∧
  Forall (λ r,
            lager.LogFormat.LogLevel r = lager.ERROR ∧
            (∀ e, err = Some e →
                  lager.LogFormat.Data r !! "error"
                  = Some (VString (err_Error e))) ∧
            (err = None →
             lager.LogFormat.Data r = lager.baseData l givenData) ∧
            (lager.sessionID l ≠ "" →
             lager.LogFormat.Data r !! "session"
             = Some (VString (lager.sessionID l))) ∧
            (∀ key, key ≠ "error" →
                    lager.LogFormat.Data r !! key
                    = lager.baseData l givenData !! key))
         (logged (lager.Error formatTimestamp l t action err givenData)) ∧
  (lager.Fatal formatTimestamp l stack t action err givenData).2 = err ∧
  (lager.Fatal formatTimestamp l stack t action err givenData).1.*1
  = lager.sinks l ∧
  Forall (λ r,
            lager.LogFormat.LogLevel r = lager.FATAL ∧
            (∃ trace rest,
               lager.LogFormat.Data r !! "trace" = Some (VString trace) ∧
               stack = trace +:+ rest ∧
               (Z.of_nat (String.length trace) ≤ lager.StackTraceBufferSize)%Z ∧
               ((Z.of_nat (String.length stack) ≤ lager.StackTraceBufferSize)%Z →
                trace = stack)) ∧
            (∀ e, err = Some e →
                  lager.LogFormat.Data r !! "error"
                  = Some (VString (err_Error e))) ∧
            (lager.sessionID l ≠ "" →
             lager.LogFormat.Data r !! "session"
             = Some (VString (lager.sessionID l))) ∧
            (∀ key, key ≠ "error" → key ≠ "trace" →
                    lager.LogFormat.Data r !! key
                    = lager.baseData l givenData !! key))
         (logged
            (lager.Fatal formatTimestamp l stack t action err givenData).1).
Proof.
  split; [apply log_to_sinks_sinks|].
  split.
  { apply Forall_logged. simpl. repeat split.
    - intros e ->. apply lookup_insert_eq.
    - by intros ->.
    - intros Hsid. destruct err; [rewrite lookup_insert_ne by done|];
        by apply baseData_session.
    - intros key Hkey. destruct err; [by rewrite lookup_insert_ne|done]. }
  split; [done|].
  split; [apply log_to_sinks_sinks|].
  apply Forall_logged. simpl. repeat split.
  - destruct (substring_prefix (Z.to_nat lager.StackTraceBufferSize) stack)
      as (rest & Hstack & Hlen & Hall).
    exists (lager.runtime_Stack lager.StackTraceBufferSize stack), rest.
    unfold lager.runtime_Stack.
    split; [apply lookup_insert_eq|].
    unfold lager.StackTraceBufferSize in *.
    split; [done|]. split; [lia|].
    intros Hle. apply Hall. lia.
  - intros e ->. rewrite lookup_insert_ne by done. apply lookup_insert_eq.
  - intros Hsid. rewrite lookup_insert_ne by done.
    destruct err; [rewrite lookup_insert_ne by done|];
      by apply baseData_session.
  - intros key Herror Htrace. rewrite lookup_insert_ne by done.
    destruct err; [by rewrite lookup_insert_ne|done].
Qed.

(** X5. Along any chain of [Session], [WithData] and [RegisterSink] from a
    logger, the component stays the same and the task only grows at its
    end. So whatever a logger of the lineage logs, at any level, has the
    first logger's component as source and a message that starts with the
    first logger's task. *)
Theorem derived_records {Sink : Type} (formatTimestamp : Z → string)
    (l l' : lager.logger Sink) (stack : string) (t : Z) (action : string)
    (err : option error) (givenData : list (gmap string value)) :
  derived l l' →
  lager.component l' = lager.component l ∧
  (∃ suffix, lager.SessionName l' = lager.SessionName l +:+ suffix) ∧
  Forall (λ r,
            lager.LogFormat.Source r = lager.component l ∧
            ∃ rest, lager.LogFormat.Message r = lager.task l +:+ rest)
         (logged (lager.Debug formatTimestamp l' t action givenData)
          ++ logged (lager.Info formatTimestamp l' t action givenData)
          ++ logged (lager.Error formatTimestamp l' t action err givenData)
          ++ logged
               (lager.Fatal formatTimestamp l' stack t action err givenData).1).
Proof.
  intros Hderived.
  destruct (derived_component_task l l' Hderived) as [Hc [suffix Ht]].
  split; [done|]. split; [by exists suffix|].
  assert (∀ level data,
            lager.LogFormat.Source
              (lager.LogFormat.mk (formatTimestamp t) (lager.component l')
                 (lager.task l' +:+ "." +:+ action) level data)
            = lager.component l ∧
            ∃ rest,
              lager.LogFormat.Message
                (lager.LogFormat.mk (formatTimestamp t) (lager.component l')
                   (lager.task l' +:+ "." +:+ action) level data)
              = lager.task l +:+ rest) as Hrecord.
  { intros level data. split; [done|].
    exists (suffix +:+ "." +:+ action). simpl.
    by rewrite Ht, string_app_assoc. }
  rewrite !Forall_app.
  repeat split; apply Forall_logged; apply Hrecord.
Qed.

Lemma derived_records_witness :
  Forall (λ r,
            lager.LogFormat.Source r = "svc" ∧
            ∃ rest, lager.LogFormat.Message r = "svc" +:+ rest)
         (logged
            (lager.Info sample.formatTimestamp
               (lager.WithData
                  (lager.Session (lager.RegisterSink (lager.NewLogger "svc") ())
                     "job" []).1
                  {[ "task" := VString "my-task" ]})
               1500000000000000000 "start" [])).
Proof.
  pose proof
    (derived_records sample.formatTimestamp
       (lager.RegisterSink (lager.NewLogger "svc") ())
       (lager.WithData
          (lager.Session (lager.RegisterSink (lager.NewLogger "svc") ())
             "job" []).1
          {[ "task" := VString "my-task" ]})
       "" 1500000000000000000 "start" None []) as H.
  destruct H as (_ & _ & H).
  - apply derived_WithData, derived_Session, derived_refl.
  - rewrite !Forall_app in H. apply H.
Defined.

(** ** Expectations made with the builders *)

Lemma builder_option_fields option e :
  builder_option option →
  ∃ e', option e = Ok e' ∧
        lager.LogFormat.LogLevel e' = lager.LogFormat.LogLevel e ∧
        lager.LogFormat.Timestamp e' = lager.LogFormat.Timestamp e.
Proof.
  intros [msg|action|src|kv Hkeys]; try by eexists.
  destruct (string_keys_arguments kv Hkeys) as [[pairs ->]|(pairs & key & ->)].
  - rewrite Data_arguments. by eexists.
  - rewrite Data_arguments_odd. by eexists.
Qed.

Lemma apply_options_fields options e :
  Forall builder_option options →
  ∃ e', glager.apply_options options e = Ok e' ∧
        lager.LogFormat.LogLevel e' = lager.LogFormat.LogLevel e ∧
        lager.LogFormat.Timestamp e' = lager.LogFormat.Timestamp e.
Proof.
  intros Hoptions. revert e.
  induction Hoptions as [|option options Hoption _ IH]; intros e; simpl.
  - by eexists.
  - destruct (builder_option_fields option e Hoption) as (e1 & -> & Hl & Ht).
    destruct (IH e1) as (e' & -> & Hl' & Ht').
    exists e'. by rewrite Hl', Ht'.
Qed.

Lemma builder_option_error (err : error) :
  builder_option (glager.Data [VString "error"; VString (err_Error err)]).
Proof.
  constructor. intros i k Hk. destruct i as [|i].
  - injection Hk as <-. by eexists.
  - replace (2 * S i)%nat with (S (S (2 * i))) in Hk by lia. done.
Qed.

(** X6. An expectation made of [Message], [Action], [Source] and [Data]
    options, the last with strings at its key positions, is built without a
    panic, whatever the number of options and of arguments; it has the level
    of the builder called and an empty timestamp. *)
Theorem Entry_builder_options (level : Z) (options : list glager.option_) :
  Forall builder_option options →
  (∃ e, glager.Entry level options = Ok e ∧
        lager.LogFormat.LogLevel e = level ∧
        lager.LogFormat.Timestamp e = "") ∧
  (∃ e, glager.Info options = Ok e ∧
        lager.LogFormat.LogLevel e = lager.INFO) ∧
  (∃ e, glager.Debug options = Ok e ∧
        lager.LogFormat.LogLevel e = lager.DEBUG) ∧
  (∀ err, ∃ e, glager.Error err options = Ok e ∧
               lager.LogFormat.LogLevel e = lager.ERROR) ∧
  (∀ err, ∃ e, glager.Fatal err options = Ok e ∧
               lager.LogFormat.LogLevel e = lager.FATAL).
Proof.
  intros Hoptions.
  assert (∀ level options, Forall builder_option options →
            ∃ e, glager.Entry level options = Ok e ∧
                 lager.LogFormat.LogLevel e = level ∧
                 lager.LogFormat.Timestamp e = "") as HEntry.
  { intros level' options' Hoptions'. unfold glager.Entry.
    destruct (apply_options_fields options'
                (lager.LogFormat.mk "" "" "" level' ∅) Hoptions')
      as (e & He & Hl & Ht).
    by exists e. }
  assert (∀ err : option error,
            Forall builder_option
              match err with
              | Some e =>
                  options
                  ++ [glager.Data [VString "error"; VString (err_Error e)]]
              | None => options
              end) as Herr.
  { intros [e|]; [|done].
    apply Forall_app. split; [done|].
    constructor; [apply builder_option_error|constructor]. }
  split; [by apply HEntry|].
  split; [destruct (HEntry lager.INFO options Hoptions) as (e & ? & ? & _);
          by exists e|].
  split; [destruct (HEntry lager.DEBUG options Hoptions) as (e & ? & ? & _);
          by exists e|].
  split; intros err.
  - destruct (HEntry lager.ERROR _ (Herr err)) as (e & ? & ? & _). by exists e.
  - destruct (HEntry lager.FATAL _ (Herr err)) as (e & ? & ? & _). by exists e.
Qed.

Lemma Entry_builder_options_witness :
  ∃ e,
    glager.Error (Some (errors_New "some-error"))
      [glager.Source "logger"; glager.Message "logger.action";
       glager.Data [VString "event"; VString "failed"; VString "task"]]
    = Ok e ∧
    lager.LogFormat.LogLevel e = lager.ERROR.
Proof.
  apply (Entry_builder_options lager.ERROR
           [glager.Source "logger"; glager.Message "logger.action";
            glager.Data [VString "event"; VString "failed"; VString "task"]]).
  repeat constructor.
  intros i k Hk. destruct i as [|[|i]].
  - injection Hk as <-. by eexists.
  - injection Hk as <-. by eexists.
  - replace (2 * S (S i))%nat with (S (S (S (S (2 * i))))) in Hk by lia. done.
Defined.

(** ** Errors of the containment check *)

Lemma contains_loop_error json_Marshal pairs actual b err :
  glager.contains_loop json_Marshal pairs actual = (b, Some err) →
  b = false ∧
  ∃ k v, (k, v) ∈ pairs ∧ json_Marshal v = inl err ∧ is_Some (actual !! k).
Proof.
  induction pairs as [|[k v] rest IH]; simpl; [done|].
  destruct (actual !! k) as [actualVal|] eqn:Hk; [|done].
  destruct (json_Marshal v) as [e|js] eqn:Hv.
  - intros [= <- <-]. split; [done|]. exists k, v.
    split; [by left|]. by rewrite Hk.
  - case_bool_decide; [done|]. intros Hrest.
    destruct (IH Hrest) as (-> & k' & v' & Hin & Hv' & Hk').
    split; [done|]. exists k', v'. split; [by right|done].
Qed.

(** X7. [logEntry.contains] returns an error only after source, message and
    level have been found to agree, and only for a key that the actual
    record has, whose expected value cannot be serialized; it then returns
    false. A record that differs in source, message or level, or lacks the
    key, is refused with a nil error. *)
Theorem contains_error_after_header
    (json_Marshal : value → error + string)
    (range_order : gmap string value → list (string * value))
    (actual expected : lager.LogFormat.t) (b : bool) (err : error) :
  visits_each_pair_once range_order →
  glager.logEntry_contains json_Marshal range_order actual expected
  = (b, Some err) →
  b = false ∧
  (lager.LogFormat.Source expected = "" ∨
   lager.LogFormat.Source actual = lager.LogFormat.Source expected) ∧
  (lager.LogFormat.Message expected = "" ∨
   lager.LogFormat.Message actual = lager.LogFormat.Message expected) ∧
  lager.LogFormat.LogLevel actual = lager.LogFormat.LogLevel expected ∧
  ∃ key val,
    lager.LogFormat.Data expected !! key = Some val ∧
    json_Marshal val = inl err ∧
    is_Some (lager.LogFormat.Data actual !! key).
Proof.
  intros Hrange. unfold glager.logEntry_contains.
  case_bool_decide as Hsource; [done|].
  case_bool_decide as Hmessage; [done|].
  case_bool_decide as Hlevel; [done|].
  unfold glager.logEntryData_contains, glager.logData.
  destruct (glager.contains_loop json_Marshal
              (range_order (lager.LogFormat.Data expected))
              (lager.LogFormat.Data actual)) as [b' [err'|]] eqn:Hloop;
    [|by destruct b'].
  intros [= <- <-].
  apply contains_loop_error in Hloop as (_ & k & v & Hin & Hv & Hk).
  split; [done|].
  split.
  { destruct (decide (lager.LogFormat.Source expected = "")); [by left|].
    right. apply dec_stable. tauto. }
  split.
  { destruct (decide (lager.LogFormat.Message expected = "")); [by left|].
    right. apply dec_stable. tauto. }
  split; [done|].
  exists k, v. split; [|done].
  rewrite (Hrange (lager.LogFormat.Data expected)) in Hin.
  by apply elem_of_map_to_list in Hin.
Qed.

Lemma contains_error_after_header_witness :
  ∃ key val,
    lager.LogFormat.Data
      (lager.LogFormat.mk "" "" "" lager.INFO
         {[ "task" := VOther "chan int" "0xc00001a0c0" ]}) !! key = Some val ∧
    sample.json_Marshal val
    = inl (errors_New "json: unsupported type: chan int") ∧
    is_Some (lager.LogFormat.Data (sample.record lager.INFO) !! key).
Proof.
  apply (contains_error_after_header sample.json_Marshal sample.range_order
           (sample.record lager.INFO)
           (lager.LogFormat.mk "" "" "" lager.INFO
              {[ "task" := VOther "chan int" "0xc00001a0c0" ]})
           false (errors_New "json: unsupported type: chan int")).
  - apply sample_range_order.
  - vm_compute. reflexivity.
Defined.

(** ** How successful searches compose *)

Section OccursFacts.
Context {A B : Type}.
Variable holds : A → B → bool.

Local Abbreviation occurs := (occurs_in_order holds).

Lemma occurs_weaken (actual : list A) cursor cursor' expected :
  (cursor ≤ cursor')%nat →
  occurs actual cursor' expected → occurs actual cursor expected.
Proof.
  intros Hle (positions & Hasc & Hall). exists positions.
  split; [by apply ascending_weaken with cursor'|done].
Qed.

Lemma occurs_nil (actual : list A) cursor : occurs actual cursor [].
Proof. exists []. split; [done|constructor]. Qed.

Lemma occurs_cons (actual : list A) cursor e expected :
  occurs actual cursor (e :: expected) ↔
  ∃ i a, (cursor ≤ i)%nat ∧ actual !! i = Some a ∧ holds a e = true ∧
         occurs actual (S i) expected.
Proof.
  split.
  - intros (positions & Hasc & Hall).
    destruct positions as [|i positions]; [by apply Forall2_nil_cons_inv in Hall|].
    apply Forall2_cons in Hall as [(a & Ha & Hholds) Hall].
    destruct Hasc as [Hle Hasc].
    exists i, a. repeat split; try done. by exists positions.
  - intros (i & a & Hle & Ha & Hholds & positions & Hasc & Hall).
    exists (i :: positions). split; [done|].
    constructor; [by exists a|done].
Qed.

Lemma occurs_shift x (actual : list A) cursor expected :
  occurs (x :: actual) (S cursor) expected ↔ occurs actual cursor expected.
Proof.
  revert cursor. induction expected as [|e expected IH]; intros cursor.
  - split; intros _; apply occurs_nil.
  - rewrite !occurs_cons. split.
    + intros (i & a & Hle & Ha & Hholds & Hrest).
      destruct i as [|i]; [lia|].
      exists i, a. repeat split; try done; [lia|]. by apply IH.
    + intros (i & a & Hle & Ha & Hholds & Hrest).
      exists (S i), a. repeat split; try done; [lia|]. by apply IH.
Qed.

Lemma occurs_head x (actual : list A) e expected :
  occurs (x :: actual) 0 (e :: expected) ↔
  (holds x e = true ∧ occurs actual 0 expected) ∨
  occurs actual 0 (e :: expected).
Proof.
  split.
  - intros Hoccurs. apply occurs_cons in Hoccurs
      as (i & a & _ & Ha & Hholds & Hrest).
    destruct i as [|i].
    + injection Ha as <-. left. split; [done|]. by apply occurs_shift in Hrest.
    + right. apply (occurs_shift x). apply occurs_cons.
      exists (S i), a. repeat split; try done. lia.
  - intros [[Hholds Hrest]|Hrest].
    + apply occurs_cons. exists 0%nat, x. repeat split; try done.
      by apply occurs_shift.
    + apply occurs_weaken with 1%nat; [lia|]. by apply occurs_shift.
Qed.

Lemma occurs_more_records (actual actual' : list A) expected :
  actual `sublist_of` actual' →
  occurs actual 0 expected → occurs actual' 0 expected.
Proof.
  intros Hsub. revert expected.
  induction Hsub as [|x l1 l2 _ IH|x l1 l2 _ IH]; intros expected Hoccurs.
  - done.
  - destruct expected as [|e expected]; [apply occurs_nil|].
    apply occurs_head. apply occurs_head in Hoccurs as [[Hholds Hrest]|Hrest].
    + left. split; [done|]. by apply IH.
    + right. by apply IH.
  - apply occurs_weaken with 1%nat; [lia|]. apply occurs_shift. by apply IH.
Qed.

Lemma occurs_fewer_expectations (actual : list A) expected expected' :
  expected' `sublist_of` expected →
  ∀ cursor, occurs actual cursor expected → occurs actual cursor expected'.
Proof.
  induction 1 as [|e l1 l2 _ IH|e l1 l2 _ IH]; intros cursor Hoccurs.
  - done.
  - apply occurs_cons in Hoccurs as (i & a & Hle & Ha & Hholds & Hrest).
    apply occurs_cons. exists i, a. repeat split; try done. by apply IH.
  - apply occurs_cons in Hoccurs as (i & a & Hle & Ha & Hholds & Hrest).
    apply occurs_weaken with (S i); [lia|]. by apply IH.
Qed.

Lemma occurs_app (actual actual' : list A) expected expected' :
  occurs actual 0 expected → occurs actual' 0 expected' →
  occurs (actual ++ actual') 0 (expected ++ expected').
Proof.
  intros Hoccurs Hoccurs'. revert expected Hoccurs.
  induction actual as [|x actual IH]; intros expected Hoccurs.
  - destruct expected as [|e expected]; [done|].
    apply occurs_cons in Hoccurs as (i & a & _ & Ha & _). done.
  - destruct expected as [|e expected].
    + simpl. apply occurs_weaken with 1%nat; [lia|]. apply occurs_shift.
      apply (IH []). apply occurs_nil.
    + simpl. apply occurs_head. apply occurs_head in Hoccurs
        as [[Hholds Hrest]|Hrest].
      * left. split; [done|]. by apply IH.
      * right. by apply (IH (e :: expected)).
Qed.
End OccursFacts.

Lemma search_true_occurs json_Marshal range_order entries expected :
  glager.search json_Marshal range_order entries expected = (true, None) ↔
  occurs_in_order (contained json_Marshal range_order) entries 0 expected.
Proof.
  rewrite <- cursor_match_occurs.
  rewrite <- (search_cursor_match json_Marshal range_order entries 0 expected).
  change (drop 0 entries) with entries.
  pose proof (search_err json_Marshal range_order entries expected) as Herr.
  destruct (glager.search json_Marshal range_order entries expected)
    as [[] [e|]]; simpl; done.
Qed.

(** X8. Records added to the log, before, between or after the ones that
    were there, do not undo a successful search: when the expected entries
    are found in [entries], they are found in every sequence that has
    [entries] as a subsequence, and no error arises. *)
Theorem search_more_records
    (json_Marshal : value → error + string)
    (range_order : gmap string value → list (string * value))
    (entries entries' expected : list lager.LogFormat.t) :
  entries `sublist_of` entries' →
  glager.search json_Marshal range_order entries expected = (true, None) →
  glager.search json_Marshal range_order entries' expected = (true, None).
Proof.
  rewrite !search_true_occurs. apply occurs_more_records.
Qed.

Lemma search_more_records_witness :
  glager.search sample.json_Marshal sample.range_order
    [sample.record lager.DEBUG; sample.record lager.INFO;
     sample.record lager.FATAL; sample.record lager.ERROR]
    [lager.LogFormat.mk "" "" "" lager.INFO ∅;
     lager.LogFormat.mk "" "logger" "" lager.ERROR ∅]
  = (true, None).
Proof.
  apply (search_more_records sample.json_Marshal sample.range_order
           [sample.record lager.INFO; sample.record lager.ERROR]).
  - apply sublist_cons, sublist_skip, sublist_cons, sublist_skip, sublist_nil.
  - vm_compute. reflexivity.
Defined.

(** X9. Expecting less does not undo a successful search: when the expected
    entries are found, so is every subsequence of them. *)
Theorem search_fewer_expectations
    (json_Marshal : value → error + string)
    (range_order : gmap string value → list (string * value))
    (entries expected expected' : list lager.LogFormat.t) :
  expected' `sublist_of` expected →
  glager.search json_Marshal range_order entries expected = (true, None) →
  glager.search json_Marshal range_order entries expected' = (true, None).
Proof.
  intros Hsub. rewrite !search_true_occurs.
  by apply occurs_fewer_expectations.
Qed.

Lemma search_fewer_expectations_witness :
  glager.search sample.json_Marshal sample.range_order
    [sample.record lager.INFO; sample.record lager.DEBUG;
     sample.record lager.ERROR]
    [lager.LogFormat.mk "" "" "" lager.INFO ∅;
     lager.LogFormat.mk "" "logger" "" lager.ERROR ∅]
  = (true, None).
Proof.
  apply (search_fewer_expectations sample.json_Marshal sample.range_order _
           [lager.LogFormat.mk "" "" "" lager.INFO ∅;
            lager.LogFormat.mk "" "" "" lager.DEBUG ∅;
            lager.LogFormat.mk "" "logger" "" lager.ERROR ∅]).
  - apply sublist_skip, sublist_cons, sublist_skip, sublist_nil.
  - vm_compute. reflexivity.
Defined.

(** X10. Successful searches concatenate: expected entries found in one
    sequence of records, followed by expected entries found in a second,
    are found in the first sequence followed by the second. *)
Theorem search_concatenation
    (json_Marshal : value → error + string)
    (range_order : gmap string value → list (string * value))
    (entries entries' expected expected' : list lager.LogFormat.t) :
  glager.search json_Marshal range_order entries expected = (true, None) →
  glager.search json_Marshal range_order entries' expected' = (true, None) →
  glager.search json_Marshal range_order (entries ++ entries')
    (expected ++ expected')
  = (true, None).
Proof.
  rewrite !search_true_occurs. apply occurs_app.
Qed.

Lemma search_concatenation_witness :
  glager.search sample.json_Marshal sample.range_order
    ([sample.record lager.INFO; sample.record lager.DEBUG]
     ++ [sample.record lager.ERROR])
    ([lager.LogFormat.mk "" "" "" lager.INFO ∅]
     ++ [lager.LogFormat.mk "" "logger" "" lager.ERROR ∅])
  = (true, None).
Proof.
  apply search_concatenation; vm_compute; reflexivity.
Defined.

(** ** Matching a reader again *)

Lemma decodes_clean_EOF json_Decode input entries rest :
  decodes json_Decode input entries None rest →
  json_Decode rest = glager.Decode_EOF.
Proof.
  intros H. remember None as stop eqn:Hstop.
  induction H as [input HEOF|input err Herr|]; [done|done|auto].
Qed.

(** X11. A source that is only an [io.Reader] is used up by a [Match] that
    decodes it to its end: the reader is left at the end of its input, and a
    second [Match] of the same matcher on it decodes no record, replaces the
    records the matcher held by none, and succeeds only when nothing is
    expected; it returns a nil error. *)
Theorem Match_again_on_reader
    (json_Marshal : value → error + string)
    (json_Decode : bytes → glager.Decode_result)
    (range_order : gmap string value → list (string * value))
    (fuel fuel' : nat) (lm : glager.logMatcher.t) (actual : actual_value)
    (input : bytes) (entries : list lager.LogFormat.t) (rest : bytes) :
  asBufferProvider actual = None →
  asContentsProvider actual = None →
  asReader actual = Some input →
  decodes json_Decode input entries None rest →
  (List.length entries < fuel)%nat →
  (0 < fuel')%nat →
  ∃ r r',
    glager.Match json_Marshal json_Decode range_order fuel lm actual = Some r ∧
    glager.logMatcher.actual (matcher r) = entries ∧
    source r = with_reader actual rest ∧
    glager.Match json_Marshal json_Decode range_order fuel' (matcher r) (source r)
    = Some r' ∧
    glager.logMatcher.actual (matcher r') = [] ∧
    glager.logMatcher.expected (matcher r') = glager.logMatcher.expected lm ∧
    err r' = None ∧
    (success r' = true ↔ glager.logMatcher.expected lm = []) ∧
    source r' = source r.
Proof.
  intros Hbuffer Hcontents Hreader Hdecodes Hfuel Hfuel'.
  assert (glager.reader_of actual = Some (input, true)) as Hof.
  { unfold glager.reader_of. by rewrite Hbuffer, Hcontents, Hreader. }
  assert (glager.reader_of (with_reader actual rest) = Some (rest, true))
    as Hof'.
  { unfold glager.reader_of. simpl. by rewrite Hbuffer, Hcontents. }
  pose proof (Match_decodes json_Marshal json_Decode range_order fuel lm
                actual input true entries None rest Hof Hdecodes Hfuel) as HM.
  eexists _, _. split; [exact HM|]. simpl.
  split; [done|]. split; [done|].
  assert (decodes json_Decode rest [] None rest) as Hdecodes'.
  { constructor. by apply decodes_clean_EOF in Hdecodes. }
  split.
  { apply (Match_decodes json_Marshal json_Decode range_order fuel'
             (glager.logMatcher.mk entries (glager.logMatcher.expected lm))
             (with_reader actual rest) rest true [] None rest Hof' Hdecodes').
    simpl. lia. }
  simpl. destruct (glager.logMatcher.expected lm); by repeat split.
Qed.

Lemma Match_again_on_reader_witness :
  ∃ r r',
    glager.Match sample.json_Marshal sample.json_Decode sample.range_order 4
      (glager.ContainSequence [lager.LogFormat.mk "" "" "" lager.ERROR ∅])
      (sample.bufio_Reader [Byte.x69; Byte.x64; Byte.x65]) = Some r ∧
    glager.Match sample.json_Marshal sample.json_Decode sample.range_order 4
      (matcher r) (source r) = Some r' ∧
    success r = true ∧ success r' = false.
Proof.
  destruct (Match_again_on_reader sample.json_Marshal sample.json_Decode
              sample.range_order 4 4
              (glager.ContainSequence [lager.LogFormat.mk "" "" "" lager.ERROR ∅])
              (sample.bufio_Reader [Byte.x69; Byte.x64; Byte.x65])
              [Byte.x69; Byte.x64; Byte.x65]
              [sample.record lager.INFO; sample.record lager.DEBUG;
               sample.record lager.ERROR] [])
    as (r & r' & HM & _ & _ & HM' & _ & _ & _ & Hsuccess & _);
    try reflexivity; try (simpl; lia).
  - repeat (eapply decodes_entry; [reflexivity|]). by apply decodes_EOF.
  - exists r, r'. split; [done|]. split; [done|].
    split.
    + vm_compute in HM. by injection HM as <-.
    + destruct (success r'); [|done]. discriminate (proj1 Hsuccess eq_refl).
Defined.

(** ** Containment as an order on records *)

Lemma logEntry_contains_true json_Marshal range_order a e :
  visits_each_pair_once range_order →
  glager.logEntry_contains json_Marshal range_order a e = (true, None) ↔
  (lager.LogFormat.Source e = "" ∨
   lager.LogFormat.Source a = lager.LogFormat.Source e) ∧
  (lager.LogFormat.Message e = "" ∨
   lager.LogFormat.Message a = lager.LogFormat.Message e) ∧
  lager.LogFormat.LogLevel a = lager.LogFormat.LogLevel e ∧
  ∀ key val,
    lager.LogFormat.Data e !! key = Some val →
    ∃ actualVal js,
      lager.LogFormat.Data a !! key = Some actualVal ∧
      json_Marshal val = inr js ∧
      match json_Marshal actualVal with inr j => j | inl _ => "" end = js.
Proof.
  intros Hrange.
  assert (glager.contains_loop json_Marshal
            (range_order (lager.LogFormat.Data e)) (lager.LogFormat.Data a)
          = (true, None) ↔
          ∀ key val,
            lager.LogFormat.Data e !! key = Some val →
            ∃ actualVal js,
              lager.LogFormat.Data a !! key = Some actualVal ∧
              json_Marshal val = inr js ∧
              match json_Marshal actualVal with inr j => j | inl _ => "" end
              = js) as Hdata.
  { rewrite contains_loop_true_Forall, Forall_forall. split.
    - intros Hall key val Hkey.
      apply (Hall (key, val)).
      rewrite (Hrange (lager.LogFormat.Data e)).
      by apply elem_of_map_to_list.
    - intros Hall [key val] Hin. apply Hall.
      rewrite (Hrange (lager.LogFormat.Data e)) in Hin.
      by apply elem_of_map_to_list in Hin. }
  rewrite <- Hdata. clear Hdata.
  unfold glager.logEntry_contains, glager.logEntryData_contains, glager.logData.
  case_bool_decide as Hsource; [split; [done|intros ([|] & _); tauto]|].
  case_bool_decide as Hmessage; [split; [done|intros (_ & [|] & _); tauto]|].
  case_bool_decide as Hlevel; [split; [done|intros (_ & _ & ? & _); tauto]|].
  assert (lager.LogFormat.Source e = "" ∨
          lager.LogFormat.Source a = lager.LogFormat.Source e) as Hs.
  { destruct (decide (lager.LogFormat.Source e = "")); [by left|].
    right. apply dec_stable. tauto. }
  assert (lager.LogFormat.Message e = "" ∨
          lager.LogFormat.Message a = lager.LogFormat.Message e) as Hm.
  { destruct (decide (lager.LogFormat.Message e = "")); [by left|].
    right. apply dec_stable. tauto. }
  destruct (glager.contains_loop json_Marshal
              (range_order (lager.LogFormat.Data e)) (lager.LogFormat.Data a))
    as [b [err'|]]; [split; [done|by intros (_ & _ & _ & ?)]|].
  split; [by intros [= ->]|by intros (_ & _ & _ & [= ->])].
Qed.

Lemma logEntry_contains_refl json_Marshal range_order e :
  visits_each_pair_once range_order →
  serializable json_Marshal (lager.LogFormat.Data e) →
  glager.logEntry_contains json_Marshal range_order e e = (true, None).
Proof.
  intros Hrange Hser. apply logEntry_contains_true; [done|].
  repeat split; [by right|by right|].
  intros key val Hkey. destruct (Hser key val Hkey) as [js Hjs].
  exists val, js. by rewrite Hjs.
Qed.

Lemma logEntry_contains_trans json_Marshal range_order a e e' :
  visits_each_pair_once range_order →
  glager.logEntry_contains json_Marshal range_order a e = (true, None) →
  glager.logEntry_contains json_Marshal range_order e e' = (true, None) →
  glager.logEntry_contains json_Marshal range_order a e' = (true, None).
Proof.
  intros Hrange. rewrite !logEntry_contains_true by done.
  intros (Hs & Hm & Hl & Hd) (Hs' & Hm' & Hl' & Hd').
  split.
  { destruct Hs' as [|Hs']; [by left|].
    destruct Hs as [Hs|Hs]; [left|right]; congruence. }
  split.
  { destruct Hm' as [|Hm']; [by left|].
    destruct Hm as [Hm|Hm]; [left|right]; congruence. }
  split; [congruence|].
  intros key val Hkey.
  destruct (Hd' key val Hkey) as (val1 & js & Hkey1 & Hjs & Hjs1).
  destruct (Hd key val1 Hkey1) as (val2 & js1 & Hkey2 & Hjs1' & Hjs2).
  exists val2, js. split; [done|]. split; [done|].
  rewrite Hjs1' in Hjs1. congruence.
Qed.

(** X12. Containment is an order on records. An entry whose data values
    all have a serialized form contains itself. And a record that contains
    an entry contains every entry which that entry, taken as a record,
    contains: meeting an expectation means meeting every weaker one. *)
Theorem contains_preorder
    (json_Marshal : value → error + string)
    (range_order : gmap string value → list (string * value))
    (a e e' : lager.LogFormat.t) :
  visits_each_pair_once range_order →
  (serializable json_Marshal (lager.LogFormat.Data e) →
   glager.logEntry_contains json_Marshal range_order e e = (true, None)) ∧
  (glager.logEntry_contains json_Marshal range_order a e = (true, None) →
   glager.logEntry_contains json_Marshal range_order e e' = (true, None) →
   glager.logEntry_contains json_Marshal range_order a e' = (true, None)).
Proof.
  intros Hrange. split.
  - by apply logEntry_contains_refl.
  - by apply logEntry_contains_trans.
Qed.

Lemma contains_preorder_witness :
  glager.logEntry_contains sample.json_Marshal sample.range_order
    (sample.record lager.INFO)
    (lager.LogFormat.mk "" "" "" lager.INFO {[ "event" := VString "starting" ]})
  = (true, None).
Proof.
  apply (proj2 (contains_preorder sample.json_Marshal sample.range_order
                  (sample.record lager.INFO)
                  (lager.LogFormat.mk "" "logger" "" lager.INFO
                     {[ "event" := VString "starting";
                        "task" := VString "my-task" ]})
                  (lager.LogFormat.mk "" "" "" lager.INFO
                     {[ "event" := VString "starting" ]})
                  sample_range_order));
    vm_compute; reflexivity.
Defined.

(** ** From the logger to the matcher *)

Lemma elem_of_logged {Sink : Type} (l : lager.logger Sink) log r :
  r ∈ logged (lager.log_to_sinks l log) → r = lager.Logged_format log.
Proof.
  unfold logged, lager.log_to_sinks.
  intros (c & -> & Hc)%list_elem_of_fmap.
  apply list_elem_of_fmap in Hc as ([sink log'] & -> & Hc).
  by apply list_elem_of_fmap in Hc as (sink' & [= _ ->] & _).
Qed.

Lemma header_contained json_Marshal range_order a r timestamp
    (err : option error) :
  visits_each_pair_once range_order →
  glager.logEntry_contains json_Marshal range_order a r = (true, None) →
  (∀ e, err = Some e →
        lager.LogFormat.Data r !! "error" = Some (VString (err_Error e))) →
  glager.logEntry_contains json_Marshal range_order a
    (lager.LogFormat.mk timestamp (lager.LogFormat.Source r)
       (lager.LogFormat.Message r) (lager.LogFormat.LogLevel r)
       match err with
       | Some e => <["error" := VString (err_Error e)]> ∅
       | None => ∅
       end)
  = (true, None).
Proof.
  intros Hrange Hcontains Herror.
  apply logEntry_contains_trans with r; [done|done|].
  apply logEntry_contains_true; [done|]. simpl.
  repeat split; [by right|by right|].
  intros key val Hkey.
  destruct err as [e|]; [|by rewrite lookup_empty in Hkey].
  apply lookup_insert_Some in Hkey as [[<- <-]|[_ Hkey]];
    [|by rewrite lookup_empty in Hkey].
  apply logEntry_contains_true in Hcontains as (_ & _ & _ & Hd); [|done].
  destruct (Hd "error" _ (Herror e eq_refl)) as (_ & js & _ & Hjs & _).
  exists (VString (err_Error e)), js. rewrite (Herror e eq_refl), Hjs. done.
Qed.

(** X13. What the logger logs meets the expectation the builders make for
    it. A record that contains what [Debug], [Info], [Error] or [Fatal] of
    package lager hands to a sink (as the record decoded from the sink's
    output is to do) contains the entry that the builder of the same name
    makes from the logger's component as source and the logger's task, a dot
    and the action as message, and for [Error] and [Fatal] from the same
    error, nil or not. *)
Theorem logged_records_contained {Sink : Type}
    (json_Marshal : value → error + string)
    (range_order : gmap string value → list (string * value))
    (formatTimestamp : Z → string)
    (l : lager.logger Sink) (stack : string) (t : Z) (action : string)
    (err : option error) (givenData : list (gmap string value))
    (a : lager.LogFormat.t) :
  visits_each_pair_once range_order →
  let options := [glager.Source (lager.component l);
                  glager.Message (lager.task l +:+ "." +:+ action)] in
  (∀ r, r ∈ logged (lager.Debug formatTimestamp l t action givenData) →
        glager.logEntry_contains json_Marshal range_order a r = (true, None) →
        ∃ e, glager.Debug options = Ok e ∧
             glager.logEntry_contains json_Marshal range_order a e
             = (true, None)) ∧
  (∀ r, r ∈ logged (lager.Info formatTimestamp l t action givenData) →
        glager.logEntry_contains json_Marshal range_order a r = (true, None) →
        ∃ e, glager.Info options = Ok e ∧
             glager.logEntry_contains json_Marshal range_order a e
             = (true, None)) ∧
  (∀ r, r ∈ logged (lager.Error formatTimestamp l t action err givenData) →
        glager.logEntry_contains json_Marshal range_order a r = (true, None) →
        ∃ e, glager.Error err options = Ok e ∧
             glager.logEntry_contains json_Marshal range_order a e
             = (true, None)) ∧
  (∀ r, r ∈ logged
              (lager.Fatal formatTimestamp l stack t action err givenData).1 →
        glager.logEntry_contains json_Marshal range_order a r = (true, None) →
        ∃ e, glager.Fatal err options = Ok e ∧
             glager.logEntry_contains json_Marshal range_order a e
             = (true, None)).
Proof.
  intros Hrange options.
  assert (∀ level, glager.Entry level options
                   = Ok (lager.LogFormat.mk "" (lager.component l)
                           (lager.task l +:+ "." +:+ action) level ∅))
    as HEntry by done.
  assert (∀ level, glager.Entry level
                     match err with
                     | Some e =>
                         options
                         ++ [glager.Data
                               [VString "error"; VString (err_Error e)]]
                     | None => options
                     end
                   = Ok (lager.LogFormat.mk "" (lager.component l)
                           (lager.task l +:+ "." +:+ action) level
                           match err with
                           | Some e => <["error" := VString (err_Error e)]> ∅
                           | None => ∅
                           end)) as HEntry'.
  { intros level. destruct err as [e|]; [|done].
    by rewrite Entry_then_error, HEntry. }
  repeat split; intros r Hr%elem_of_logged Hcontains; subst r.
  - eexists. split; [apply HEntry|].
    by refine (header_contained _ _ a _ "" None Hrange Hcontains _).
  - eexists. split; [apply HEntry|].
    by refine (header_contained _ _ a _ "" None Hrange Hcontains _).
  - eexists. split; [apply HEntry'|].
    refine (header_contained _ _ a _ "" err Hrange Hcontains _).
    intros e ->. apply lookup_insert_eq.
  - eexists. split; [apply HEntry'|].
    refine (header_contained _ _ a _ "" err Hrange Hcontains _).
    intros e ->. simpl. rewrite lookup_insert_ne by done.
    apply lookup_insert_eq.
Qed.

Lemma logged_records_contained_witness :
  ∃ e,
    glager.Error (Some (errors_New "some-error"))
      [glager.Source "logger"; glager.Message "logger.action"] = Ok e ∧
    glager.logEntry_contains sample.json_Marshal sample.range_order
      (lager.LogFormat.mk "1500000000.000000000" "logger" "logger.action"
         lager.ERROR
         {[ "error" := VString "some-error"; "event" := VString "failed" ]})
      e
    = (true, None).
Proof.
  apply (proj1 (proj2 (proj2
           (logged_records_contained sample.json_Marshal sample.range_order
              sample.formatTimestamp
              (lager.RegisterSink (lager.NewLogger "logger") ())
              "" 1500000000000000000 "action"
              (Some (errors_New "some-error"))
              [ {[ "event" := VString "failed" ]} ]
              (lager.LogFormat.mk "1500000000.000000000" "logger"
                 "logger.action" lager.ERROR
                 {[ "error" := VString "some-error";
                    "event" := VString "failed" ]})
              sample_range_order)))
           (lager.LogFormat.mk (sample.formatTimestamp 1500000000000000000)
              "logger" "logger.action" lager.ERROR
              (<["error" := VString "some-error"]>
                 (lager.baseData
                    (lager.RegisterSink (lager.NewLogger "logger") ())
                    [ {[ "event" := VString "failed" ]} ])))).
  - apply list_elem_of_singleton. reflexivity.
  - vm_compute. reflexivity.
Defined.

(** ** The earlier glager.go: searching without an index, and panics *)

Lemma legacy_LogEntries_contains_indexOf_from range_order interface_ne
    i entries entry :
  legacy.LogEntries_contains range_order interface_ne entries entry
  = match legacy.indexOf_from range_order interface_ne i entries entry with
    | Ok (_, found) => Ok found
    | Panic p => Panic p
    end.
Proof.
  revert i. induction entries as [|actual rest IH]; intros i; simpl; [done|].
  destruct (legacy.LogEntry_contains range_order interface_ne actual entry)
    as [[|]|p]; [done|apply IH|done].
Qed.

Lemma legacy_indexOf_from_found range_order interface_ne base entries entry i :
  legacy.indexOf_from range_order interface_ne base entries entry
  = Ok (i, true) →
  ∃ k a, i = (base + k)%nat ∧ entries !! k = Some a ∧
         legacy.LogEntry_contains range_order interface_ne a entry = Ok true ∧
         ∀ j b, (j < k)%nat → entries !! j = Some b →
                legacy.LogEntry_contains range_order interface_ne b entry
                = Ok false.
Proof.
  revert base. induction entries as [|actual rest IH]; intros base; simpl;
    [done|].
  destruct (legacy.LogEntry_contains range_order interface_ne actual entry)
    as [[|]|p] eqn:Hactual; try done.
  - intros [= <-]. exists 0%nat, actual.
    split; [lia|]. split; [done|]. split; [done|].
    intros j b Hj. lia.
  - intros Hrest.
    destruct (IH _ Hrest) as (k & a & -> & Ha & Hcontains & Hbefore).
    exists (S k), a.
    split; [lia|]. split; [done|]. split; [done|].
    intros [|j] b Hj; simpl; [by intros [= <-]|].
    apply Hbefore. lia.
Qed.

Lemma legacy_LogEntries_contains_false range_order interface_ne entries entry :
  legacy.LogEntries_contains range_order interface_ne entries entry = Ok false →
  ∀ a, a ∈ entries →
       legacy.LogEntry_contains range_order interface_ne a entry = Ok false.
Proof.
  induction entries as [|actual rest IH]; simpl; intros Hcontains a Ha.
  - by apply elem_of_nil in Ha.
  - destruct (legacy.LogEntry_contains range_order interface_ne actual entry)
      as [[|]|p] eqn:Hactual; try done.
    apply elem_of_cons in Ha as [->|Ha]; [done|by apply IH].
Qed.

(** X14. In the earlier glager.go, [LogEntries.contains] answers what
    [LogEntries.indexOf] reports as found, and panics when it panics. An
    index reported with found is that of the first record that contains the
    entry, so it lies within the sequence; and when [contains] answers
    false, no record of the sequence contains the entry. *)
Theorem LogEntries_contains_indexOf
    (range_order : gmap string value → list (string * value))
    (interface_ne : value → value → result bool)
    (entries : list lager.LogFormat.t) (entry : lager.LogFormat.t) :
  legacy.LogEntries_contains range_order interface_ne entries entry
  = match legacy.indexOf range_order interface_ne entries entry with
    | Ok (_, found) => Ok found
    | Panic p => Panic p
    end ∧
  (∀ i,
     legacy.indexOf range_order interface_ne entries entry = Ok (i, true) →
     (i < List.length entries)%nat ∧
     (∃ a, entries !! i = Some a ∧
           legacy.LogEntry_contains range_order interface_ne a entry
           = Ok true) ∧
     (∀ j b, (j < i)%nat → entries !! j = Some b →
             legacy.LogEntry_contains range_order interface_ne b entry
             = Ok false)) ∧
  (legacy.LogEntries_contains range_order interface_ne entries entry
   = Ok false →
   ∀ a, a ∈ entries →
        legacy.LogEntry_contains range_order interface_ne a entry = Ok false).
Proof.
  split; [apply legacy_LogEntries_contains_indexOf_from|].
  split; [|apply legacy_LogEntries_contains_false].
  intros i Hfound.
  apply legacy_indexOf_from_found in Hfound
    as (k & a & -> & Ha & Hcontains & Hbefore).
  simpl. split; [by apply lookup_lt_Some in Ha|].
  split; [by exists a|done].
Qed.

Lemma LogEntries_contains_indexOf_witness :
  (1 < 3)%nat ∧
  (∃ a, [sample.record lager.INFO; sample.record lager.DEBUG;
         sample.record lager.ERROR] !! 1%nat = Some a ∧
        legacy.LogEntry_contains sample.range_order sample.interface_ne a
          (lager.LogFormat.mk "" "" "" lager.DEBUG
             {[ "task" := VString "my-task" ]})
        = Ok true) ∧
  (∀ j b, (j < 1)%nat →
          [sample.record lager.INFO; sample.record lager.DEBUG;
           sample.record lager.ERROR] !! j = Some b →
          legacy.LogEntry_contains sample.range_order sample.interface_ne b
            (lager.LogFormat.mk "" "" "" lager.DEBUG
               {[ "task" := VString "my-task" ]})
          = Ok false).
Proof.
  apply (proj1 (proj2
           (LogEntries_contains_indexOf sample.range_order sample.interface_ne
              [sample.record lager.INFO; sample.record lager.DEBUG;
               sample.record lager.ERROR]
              (lager.LogFormat.mk "" "" "" lager.DEBUG
                 {[ "task" := VString "my-task" ]})))).
  vm_compute. reflexivity.
Defined.

Lemma written_string_valued pairs data :
  Forall (λ kv : string * value, is_string kv.2) pairs →
  string_valued data → string_valued (written pairs data).
Proof.
  unfold written. intros Hpairs. revert data.
  induction Hpairs as [|[k v] pairs Hv _ IH]; intros data Hdata; simpl;
    [done|].
  apply IH. intros key val [[_ <-]|[_ Hkey]]%lookup_insert_Some; [done|].
  by apply (Hdata key).
Qed.

Lemma legacy_pairs_strings (pairs : list (string * string)) :
  Forall (λ kv : string * value, is_string kv.2) (prod_map id VString <$> pairs).
Proof.
  induction pairs as [|[k v] pairs IH]; [constructor|].
  rewrite fmap_cons. constructor; [by eexists|done].
Qed.

Lemma legacy_builder_option_string_valued option e :
  legacy_builder_option option →
  string_valued (lager.LogFormat.Data e) →
  ∃ e', option e = Ok e' ∧ string_valued (lager.LogFormat.Data e').
Proof.
  intros [msg|action|src|kv] He; try by eexists.
  destruct (legacy_strings_arguments kv) as [[pairs ->]|(pairs & key & ->)].
  - rewrite legacy_Data_arguments. eexists. split; [done|]. simpl.
    apply written_string_valued; [apply legacy_pairs_strings|done].
  - rewrite legacy_Data_arguments_odd. eexists. split; [done|]. simpl.
    intros key' val [[_ <-]|[_ Hkey]]%lookup_insert_Some; [by eexists|].
    revert Hkey. apply written_string_valued;
      [apply legacy_pairs_strings|done].
Qed.

Lemma legacy_apply_options_string_valued options e :
  Forall legacy_builder_option options →
  string_valued (lager.LogFormat.Data e) →
  ∃ e', legacy.apply_options options e = Ok e' ∧
        string_valued (lager.LogFormat.Data e').
Proof.
  intros Hoptions. revert e.
  induction Hoptions as [|option options Hoption _ IH]; intros e He; simpl.
  - by exists e.
  - destruct (legacy_builder_option_string_valued option e Hoption He)
      as (e1 & -> & He1).
    by apply IH.
Qed.

Section LegacyTotal.
Variable range_order : gmap string value → list (string * value).
Variable interface_ne : value → value → result bool.
Hypothesis Hrange : visits_each_pair_once range_order.
Hypothesis Hstrings : strings_comparable interface_ne.

Lemma legacy_contains_loop_total pairs actual :
  Forall (λ kv : string * value, is_string kv.2) pairs →
  ∃ b, legacy.contains_loop interface_ne pairs actual = Ok b.
Proof.
  induction 1 as [|[k v] pairs [s Hv] _ IH]; simpl; [by eexists|].
  simpl in Hv. subst v.
  destruct (actual !! k) as [actualValue|]; [|by eexists].
  destruct (Hstrings s actualValue) as [[|] ->]; [by eexists|done].
Qed.

Lemma legacy_LogEntry_contains_total a e :
  string_valued (lager.LogFormat.Data e) →
  ∃ b, legacy.LogEntry_contains range_order interface_ne a e = Ok b.
Proof.
  intros He. unfold legacy.LogEntry_contains.
  repeat (case_bool_decide; [by eexists|]).
  unfold legacy.LogEntryData_contains, legacy.LogData.
  destruct (legacy_contains_loop_total
              (range_order (lager.LogFormat.Data e)) (lager.LogFormat.Data a))
    as [[|] ->]; [|by eexists..].
  apply Forall_forall. intros [k v] Hin. simpl.
  rewrite (Hrange (lager.LogFormat.Data e)) in Hin.
  apply elem_of_map_to_list in Hin. by apply (He k).
Qed.

Lemma legacy_indexOf_from_total i entries e :
  string_valued (lager.LogFormat.Data e) →
  ∃ x, legacy.indexOf_from range_order interface_ne i entries e = Ok x.
Proof.
  intros He. revert i.
  induction entries as [|a rest IH]; intros i; simpl; [by eexists|].
  destruct (legacy_LogEntry_contains_total a e He) as [[|] ->];
    [by eexists|apply IH].
Qed.

Lemma legacy_search_total entries expected :
  Forall (λ e, string_valued (lager.LogFormat.Data e)) expected →
  ∃ b, legacy.search range_order interface_ne entries expected
       = Ok (b, None).
Proof.
  intros Hexpected. revert entries.
  induction Hexpected as [|e expected He _ IH]; intros entries; simpl;
    [by eexists|].
  unfold legacy.indexOf.
  destruct (legacy_indexOf_from_total 0 entries e He) as [[i [|]] ->];
    [apply IH|by eexists].
Qed.
End LegacyTotal.

Lemma sample_interface_ne : strings_comparable sample.interface_ne.
Proof. intros s w. destruct w; by eexists. Qed.

(** X15. In the earlier glager.go an expectation made with [Message],
    [Action], [Source] and [Data] is built without a panic and holds only
    strings as data values, also under [Error] with a non-nil error. With
    such expectations [Match] on a reader does not panic, whatever the
    records hold: the comparison of data values has a string on its left. *)
Theorem legacy_builders_never_panic
    (json_Decode : bytes → glager.Decode_result)
    (range_order : gmap string value → list (string * value))
    (interface_ne : value → value → result bool)
    (fuel : nat) (lm : legacy.logMatcher.t) (actual : actual_value)
    (input : bytes) (entries : list lager.LogFormat.t)
    (stop : option error) (rest : bytes) :
  visits_each_pair_once range_order →
  strings_comparable interface_ne →
  (∀ level options,
     Forall legacy_builder_option options →
     ∃ e, legacy.Entry level options = Ok e ∧
          string_valued (lager.LogFormat.Data e)) ∧
  (∀ err options,
     Forall legacy_builder_option options →
     ∃ e, legacy.Error (Some err) options = Ok e ∧
          string_valued (lager.LogFormat.Data e)) ∧
  (Forall (λ e, string_valued (lager.LogFormat.Data e))
          (legacy.logMatcher.expected lm) →
   asReader actual = Some input →
   decodes json_Decode input entries stop rest →
   (List.length entries < fuel)%nat →
   ∃ r, legacy.Match json_Decode range_order interface_ne fuel lm actual
        = Some (Ok r)).
Proof.
  intros Hrange Hstrings.
  assert (∀ level options,
            Forall legacy_builder_option options →
            ∃ e, legacy.Entry level options = Ok e ∧
                 string_valued (lager.LogFormat.Data e)) as HEntry.
  { intros level options Hoptions. unfold legacy.Entry.
    apply legacy_apply_options_string_valued; [done|].
    intros key val Hkey. simpl in Hkey. by rewrite lookup_empty in Hkey. }
  split; [done|]. split.
  - intros err options Hoptions. unfold legacy.Error.
    apply HEntry. apply Forall_app. split; [done|].
    constructor; [constructor|constructor].
  - intros Hexpected Hreader Hdecodes Hfuel.
    rewrite (legacy_Match_decodes json_Decode range_order interface_ne fuel lm
               actual input entries stop rest Hreader Hdecodes Hfuel).
    destruct stop as [e|]; [by eexists|].
    destruct (legacy_search_total range_order interface_ne Hrange Hstrings
                entries _ Hexpected) as [b ->].
    by eexists.
Qed.

Lemma legacy_builders_never_panic_witness :
  ∃ r, legacy.Match sample.json_Decode sample.range_order sample.interface_ne 4
         (legacy.ContainSequence
            [lager.LogFormat.mk "" "" "" lager.INFO
               {[ "task" := VString "my-task" ]}])
         (sample.bufio_Reader [Byte.x69; Byte.x64; Byte.x65])
       = Some (Ok r).
Proof.
  apply (proj2 (proj2
           (legacy_builders_never_panic sample.json_Decode sample.range_order
              sample.interface_ne 4
              (legacy.ContainSequence
                 [lager.LogFormat.mk "" "" "" lager.INFO
                    {[ "task" := VString "my-task" ]}])
              (sample.bufio_Reader [Byte.x69; Byte.x64; Byte.x65])
              [Byte.x69; Byte.x64; Byte.x65]
              [sample.record lager.INFO; sample.record lager.DEBUG;
               sample.record lager.ERROR] None []
              sample_range_order sample_interface_ne))).
  - repeat constructor.
    intros key val Hkey. simpl in Hkey.
    apply lookup_singleton_Some in Hkey as [_ <-]. by eexists.
  - reflexivity.
  - repeat (eapply decodes_entry; [reflexivity|]). by apply decodes_EOF.
  - simpl. lia.
Defined.

(** ** Splitting the arguments of [Data] *)

Lemma written_app pairs pairs' data :
  written (pairs ++ pairs') data = written pairs' (written pairs data).
Proof. unfold written. apply foldl_app. Qed.

(** X16. One [Data] option with the pairs of two argument lists one after
    the other writes what two [Data] options, one for each list in that
    order, write: [Data(k1, v1, k2, v2)] is [Data(k1, v1), Data(k2, v2)],
    also when the second list ends with a key without a value. The same
    holds in the earlier glager.go. *)
Theorem Data_splits (e : lager.LogFormat.t)
    (pairs pairs' : list (string * value))
    (spairs spairs' : list (string * string)) (key : string) :
  glager.apply_options
    [glager.Data (arguments pairs); glager.Data (arguments pairs')] e
  = glager.Data (arguments (pairs ++ pairs')) e ∧
  glager.apply_options
    [glager.Data (arguments pairs);
     glager.Data (arguments pairs' ++ [VString key])] e
  = glager.Data (arguments (pairs ++ pairs') ++ [VString key]) e ∧
  legacy.apply_options
    [legacy.Data (legacy_arguments spairs);
     legacy.Data (legacy_arguments spairs')] e
  = legacy.Data (legacy_arguments (spairs ++ spairs')) e ∧
  legacy.apply_options
    [legacy.Data (legacy_arguments spairs);
     legacy.Data (legacy_arguments spairs' ++ [key])] e
  = legacy.Data (legacy_arguments (spairs ++ spairs') ++ [key]) e.
Proof.
  cbn [glager.apply_options legacy.apply_options].
  rewrite !Data_arguments, !Data_arguments_odd, !legacy_Data_arguments,
    !legacy_Data_arguments_odd.
  cbn [with_Data lager.LogFormat.Data lager.LogFormat.Timestamp
         lager.LogFormat.Source lager.LogFormat.Message
         lager.LogFormat.LogLevel].
  by rewrite fmap_app, !written_app.
Qed.
